(** * Skip-gram data pipeline and checkpointing: a shallow embedding

    The notebooks of the repository are embedded function by function:
    - [utils.ipynb]: [preprocess], [create_lookup_tables];
    - the skip-gram notebook: the subsampler ([train_words]), [get_target],
      [get_batches];
    - the checkpoint notebook: the [checkpoint] dictionary and
      [load_checkpoint].

    Python integers are [Z], Python lists are [list], a Python [str] is
    the list of its characters, dictionaries are insertion-ordered
    association lists (the order of a [Counter] decides ties in [sorted]).
    The two random number generators are tapes of draws read through a
    cursor; exceptions are the error monad [result]. *)

From Stdlib Require Import ZArith Lia.
From Stdlib Require Import Ascii String.
From Stdlib Require Import Floats.PrimFloat Numbers.Cyclic.Int63.Uint63.
From stdpp Require Import base list strings sorting.

Local Open Scope Z_scope.

(** ** Python built-ins *)

Inductive exn : Type :=
  | ValueError
  | ZeroDivisionError
  | IndexError
  | KeyError
  | RuntimeError
  | FileNotFoundError.

Inductive result (A : Type) : Type :=
  | Ok (a : A)
  | Raise (e : exn).
Arguments Ok {A} a.
Arguments Raise {A} e.

Section PyList.
Context {A : Type}.

Definition len (l : list A) : Z := Z.of_nat (length l).

(** A slice bound is clamped into [0, len]; a negative bound counts from
    the end of the list. *)
Definition slice_bound (n i : Z) : Z :=
  if i <? 0 then Z.max 0 (n + i) else Z.min i n.

(** [l[lo:hi]] *)
Definition slice (l : list A) (lo hi : Z) : list A :=
  let lo' := slice_bound (len l) lo in
  let hi' := slice_bound (len l) hi in
  take (Z.to_nat (hi' - lo')) (drop (Z.to_nat lo') l).

(** [l[:hi]] *)
Definition slice_to (l : list A) (hi : Z) : list A := slice l 0 hi.

(** [l[i]] *)
Definition index (l : list A) (i : Z) : result A :=
  let i' := if i <? 0 then len l + i else i in
  if i' <? 0 then Raise IndexError
  else match l !! Z.to_nat i' with
       | Some a => Ok a
       | None => Raise IndexError
       end.

(** [enumerate(l)]: each element paired with its position. *)
Definition enumerate (l : list A) : list (Z * A) :=
  imap (λ i a, (Z.of_nat i, a)) l.

(** [[a] * n] *)
Definition repeat_list (a : A) (n : Z) : list A := replicate (Z.to_nat n) a.
End PyList.

(** [a // b] on integers: Python rounds to the floor, as [Z.div] does. *)
Definition floordiv (a b : Z) : result Z :=
  if b =? 0 then Raise ZeroDivisionError else Ok (a / b).

(** [range(start, stop, step)], as the list of its values. *)
Definition range_len (start stop step : Z) : nat :=
  if 0 <? step then Z.to_nat ((stop - start + step - 1) / step)
  else Z.to_nat ((start - stop - step - 1) / (- step)).

Definition range (start stop step : Z) : result (list Z) :=
  if step =? 0 then Raise ValueError
  else Ok ((λ i : nat, start + Z.of_nat i * step) <$> seq 0 (range_len start stop step)).

(** ** Errors and random generators

    An exception aborts the computation: [result] is the error monad.  A
    random generator ([np.random], [random]) is global state: here a tape
    of draws (any stream of values of [T]) and a cursor on it; a
    computation of [Gen T] reads the tape at the cursor and moves the
    cursor on. *)

#[global] Instance result_ret : MRet result := λ A a, Ok a.
#[global] Instance result_bind : MBind result := λ A B f r,
  match r with
  | Ok a => f a
  | Raise e => Raise e
  end.

Definition Gen (T A : Type) : Type := (nat → T) → nat → result (A * nat).

#[global] Instance Gen_ret {T} : MRet (Gen T) := λ A a _ k, Ok (a, k).
#[global] Instance Gen_bind {T} : MBind (Gen T) := λ A B f m tape k,
  match m tape k with
  | Ok (a, k') => f a tape k'
  | Raise e => Raise e
  end.

Definition lift {T A} (r : result A) : Gen T A := λ _ k,
  match r with
  | Ok a => Ok (a, k)
  | Raise e => Raise e
  end.

(** The next draw. *)
Definition draw {T} : Gen T T := λ tape k, Ok (tape k, S k).

(** The numpy generator draws raw integers. *)
Abbreviation Rand := (Gen Z).

(** The bounds of [int64], the dtype of the integers that
    [np.random.randint] draws: -2^63 and 2^63 - 1. *)
Definition int64_min : Z := -9223372036854775808.
Definition int64_max : Z := 9223372036854775807.

(** [np.random.randint(low, high)]: a value of [low, high); [ValueError]
    when [low] or [high - 1] is out of the bounds of [int64], and when the
    interval is empty. *)
Definition randint (low high : Z) : Rand Z := λ tape k,
  if (int64_min <=? low) && (high - 1 <=? int64_max) && (low <? high)
  then Ok (low + tape k mod (high - low), S k)
  else Raise ValueError.

(** [np.where(c, x, y)] on scalars. *)
Definition np_where (c : bool) (x y : Z) : Z := if c then x else y.

Section GenLoops.
Context {T A B : Type}.

(** [for a in l: acc = body(acc, a)] *)
Fixpoint for_each (body : B → A → Gen T B) (acc : B) (l : list A) : Gen T B :=
  match l with
  | [] => mret acc
  | a :: l' => acc' ← body acc a; for_each body acc' l'
  end.

(** A generator whose body runs once per element and yields once. *)
Fixpoint yield_each (body : A → Gen T B) (l : list A) : Gen T (list B) :=
  match l with
  | [] => mret []
  | a :: l' => b ← body a; bs ← yield_each body l'; mret (b :: bs)
  end.

(** [[a for a in l if cond(a)]] *)
Fixpoint select_each (cond : A → Gen T bool) (l : list A) : Gen T (list A) :=
  match l with
  | [] => mret []
  | a :: l' =>
      keep ← cond a;
      rest ← select_each cond l';
      mret (if keep : bool then a :: rest else rest)
  end.
End GenLoops.

(** ** Dictionaries

    A Python dictionary keeps its keys in insertion order: an association
    list without repeated keys.  Assigning to a key that is present keeps
    its place. *)

Section PyDict.
Context {K V : Type} `{EqDecision K}.

(** [d.get(k)] *)
Fixpoint dict_get (d : list (K * V)) (k : K) : option V :=
  match d with
  | [] => None
  | (k', v) :: d' => if decide (k' = k) then Some v else dict_get d' k
  end.

(** [d[k]] *)
Definition dict_getitem (d : list (K * V)) (k : K) : result V :=
  match dict_get d k with
  | Some v => Ok v
  | None => Raise KeyError
  end.

(** [d[k] = v] *)
Fixpoint dict_set (d : list (K * V)) (k : K) (v : V) : list (K * V) :=
  match d with
  | [] => [(k, v)]
  | (k', v') :: d' =>
      if decide (k' = k) then (k', v) :: d' else (k', v') :: dict_set d' k v
  end.

(** Iterating a dictionary gives its keys, [d.items()] its pairs. *)
Definition dict_keys (d : list (K * V)) : list K := d.*1.
Definition dict_items (d : list (K * V)) : list (K * V) := d.

(** [{k: v for ...}]: the pairs are assigned one after the other. *)
Definition dict_of (items : list (K * V)) : list (K * V) :=
  foldl (λ d kv, dict_set d kv.1 kv.2) [] items.
End PyDict.

Section PyCounter.
Context {K : Type} `{EqDecision K}.

(** [Counter(words)]: each element adds one to its count, a new element
    enters after those seen before. *)
Definition Counter (words : list K) : list (K * Z) :=
  foldl (λ c w, dict_set c w (default 0 (dict_get c w) + 1)) [] words.

(** [c[k]] on a [Counter]: zero for a missing key. *)
Definition counter_getitem (c : list (K * Z)) (k : K) : Z :=
  default 0 (dict_get c k).

(** [sorted(l, key=key, reverse=True)]: the stable sort by decreasing
    key, elements of equal key staying in the order of [l]. *)
Fixpoint insert_desc (key : K → Z) (x : K) (l : list K) : list K :=
  match l with
  | [] => [x]
  | y :: l' => if key y <=? key x then x :: y :: l' else y :: insert_desc key x l'
  end.

Definition sorted_reverse (key : K → Z) (l : list K) : list K :=
  foldr (insert_desc key) [] l.

(** How many times [w] occurs in [ws]. *)
Definition occurrences (w : K) (ws : list K) : nat :=
  length (filter (w =.) ws).
End PyCounter.

(** ** Strings

    A [str] is the list of its characters, here characters of code point
    below 256 ([ascii]); [lower] and [isspace] are the Unicode tables on
    that range, where [str.lower] maps each character by itself.  Beyond
    that range [str.lower] reads the context of a character (the final
    sigma): the properties below cut a text in two only once it is
    lowercased, or at a whitespace character, where [str.lower] can be
    cut as well. *)

Abbreviation str := (list ascii).

(** A string literal. *)
Definition lit (s : string) : str := list_ascii_of_string s.

Definition lower_char (c : ascii) : ascii :=
  let n := N_of_ascii c in
  if ((65 <=? n) && (n <=? 90)
      || (192 <=? n) && (n <=? 222) && negb (n =? 215))%N
  then ascii_of_N (n + 32) else c.

(** [s.lower()] *)
Definition lower (s : str) : str := lower_char <$> s.

Definition isspace (c : ascii) : bool :=
  let n := N_of_ascii c in
  ((9 <=? n) && (n <=? 13) || (28 <=? n) && (n <=? 32)
   || (n =? 133) || (n =? 160))%N.

(** [s.startswith(old)] *)
Fixpoint startswith (s old : str) {struct old} : bool :=
  match old, s with
  | [], _ => true
  | o :: old', c :: s' => if decide (o = c) then startswith s' old' else false
  | _ :: _, [] => false
  end.

(** [s.replace(old, new)]: the occurrences of [old] are found from left to
    right and do not overlap; [skip] characters of a found occurrence are
    still to be passed over. *)
Fixpoint replace_from (skip : nat) (s old new : str) : str :=
  match s with
  | [] => []
  | c :: s' =>
      match skip with
      | S skip' => replace_from skip' s' old new
      | O =>
          if startswith s old
          then new ++ replace_from (length old - 1) s' old new
          else c :: replace_from 0 s' old new
      end
  end.

Definition replace (s old new : str) : str :=
  match old with
  | [] => new ++ mjoin ((λ c, c :: new) <$> s)
  | _ => replace_from 0 s old new
  end.

(** [s.split()]: the maximal runs of characters that are not whitespace;
    [cur] is the run being read. *)
Fixpoint split_from (cur : str) (s : str) : list str :=
  match s with
  | [] => if cur is [] then [] else [cur]
  | c :: s' =>
      if isspace c
      then (if cur is [] then split_from [] s' else cur :: split_from [] s')
      else split_from (cur ++ [c]) s'
  end.

Definition split (s : str) : list str := split_from [] s.

(** ** [utils.ipynb] *)

Definition quotation_mark : ascii := ascii_of_nat 34.
Definition hyphen : ascii := "-"%char.

(** The replacements of [preprocess], in the order of the source. *)
Definition replace_punctuation (text : str) : str :=
  let text := replace text (lit ".") (lit " <PERIOD> ") in
  let text := replace text (lit ",") (lit " <COMMA> ") in
  let text := replace text [quotation_mark] (lit " <QUOTATION_MARK> ") in
  let text := replace text (lit ";") (lit " <SEMICOLON> ") in
  let text := replace text (lit "!") (lit " <EXCLAMATION_MARK> ") in
  let text := replace text (lit "?") (lit " <QUESTION_MARK> ") in
  let text := replace text (lit "(") (lit " <LEFT_PAREN> ") in
  let text := replace text (lit ")") (lit " <RIGHT_PAREN> ") in
  let text := replace text (lit "--") (lit " <HYPHENS> ") in
  let text := replace text (lit "?") (lit " <QUESTION_MARK> ") in
  let text := replace text (lit ":") (lit " <COLON> ") in
  text.

Definition preprocess (text : str) : list str :=
  let text := lower text in
  let text := replace_punctuation text in
  let words := split text in
  let word_counts := Counter words in
  let trimmed_words := filter (λ word, 5 < counter_getitem word_counts word) words in
  trimmed_words.

(** The tokenized text: lowercased, punctuation replaced, split. *)
Definition tokenize (text : str) : list str :=
  split (replace_punctuation (lower text)).

Section LookupTables.
Context {K : Type} `{EqDecision K}.

(** [word_counts.get], the key of the sort, is applied to the keys of
    [word_counts], where it is the count. *)
Definition create_lookup_tables (words : list K) : list (K * Z) * list (Z * K) :=
  let word_counts := Counter words in
  let sorted_vocab :=
    sorted_reverse (counter_getitem word_counts) (dict_keys word_counts) in
  let int_to_vocab := dict_of (enumerate sorted_vocab) in
  let vocab_to_int :=
    dict_of ((λ iw : Z * K, (iw.2, iw.1)) <$> dict_items int_to_vocab) in
  (vocab_to_int, int_to_vocab).
End LookupTables.

(** ** Floating point numbers

    The subsampler computes on binary64 numbers.  The operations it uses
    are an interface; the divisions of Python raise on a zero divisor. *)

Class Float (F : Type) := {
  float_of_int : Z → F;
  int_div : Z → Z → F;
  float_div : F → F → F;
  float_is_zero : F → bool;
  float_sub : F → F → F;
  float_lt : F → F → bool;
  np_sqrt : F → F;
  float_1e_5 : F;
}.

(** [a / b] on integers *)
Definition int_truediv `{Float F} (a b : Z) : result F :=
  if b =? 0 then Raise ZeroDivisionError else Ok (int_div a b).

(** [x / y] on floats *)
Definition float_truediv `{Float F} (x y : F) : result F :=
  if float_is_zero y then Raise ZeroDivisionError else Ok (float_div x y).

(** ** The skip-gram notebook: subsampling *)

Section Subsampling.
Context {F : Type} `{Float F} {K : Type} `{EqDecision K}.

Definition threshold : F := float_1e_5.

(** [{word: count/total_count for word, count in word_counts.items()}] *)
Definition frequency_of (word_counts : list (K * Z)) (total_count : Z)
    : result (list (K * F)) :=
  items ← mapM (λ wc : K * Z,
                  q ← int_truediv wc.2 total_count; mret (wc.1, q))
               (dict_items word_counts);
  mret (dict_of items).

(** [{word: 1 - np.sqrt(threshold / frequency[word]) for word in word_counts}] *)
Definition p_drop_of (word_counts : list (K * Z)) (frequency : list (K * F))
    : result (list (K * F)) :=
  items ← mapM (λ word,
                  f ← dict_getitem frequency word;
                  q ← float_truediv threshold f;
                  mret (word, float_sub (float_of_int 1) (np_sqrt q)))
               (dict_keys word_counts);
  mret (dict_of items).

(** The subsampling cell, which reads [int_words] and assigns
    [train_words]; [random.random()] is the next draw of the tape.  The
    cell prints the first item of [word_counts] on its way. *)
Definition train_words (int_words : list K) : Gen F (list K) :=
  let word_counts := Counter int_words in
  first_item ← lift (index (dict_items word_counts) 0);
  let total_count := len int_words in
  frequency ← lift (frequency_of word_counts total_count);
  p_drop ← lift (p_drop_of word_counts frequency);
  select_each (λ word,
                 r ← draw;
                 p ← lift (dict_getitem p_drop word);
                 mret (float_lt r (float_sub (float_of_int 1) p)))
              int_words.
End Subsampling.

(** ** The skip-gram notebook: [get_target] and [get_batches] *)

Section SkipGram.
Context {A : Type}.

Definition get_target (words : list A) (idx window_size : Z) : Rand (list A) :=
  R ← randint 1 (window_size + 1);
  let first := np_where (0 <? idx - R) (idx - R) 3 in
  let List := slice words first idx ++ slice words (idx + 1) (idx + R + 1) in
  mret List.

(** One turn of the inner loop of [get_batches]: [x] and [y] are the two
    lists the loop extends. *)
Definition batch_step (batch : list A) (window_size : Z)
    (xy : list A * list A) (ii : Z) : Rand (list A * list A) :=
  batch_x ← lift (index batch ii);
  batch_y ← get_target batch ii window_size;
  let y := xy.2 ++ batch_y in
  let x := xy.1 ++ repeat_list batch_x (len batch_y) in
  mret (x, y).

(** The inner loop of [get_batches] on one [batch], from [x, y = [], []]
    to the pair that is yielded. *)
Definition inner_loop (batch : list A) (window_size : Z) : Rand (list A * list A) :=
  iis ← lift (range 0 (len batch) 1);
  for_each (batch_step batch window_size) ([], []) iis.

Definition get_batches (words : list A) (batch_size window_size : Z)
    : Rand (list (list A * list A)) :=
  n_batches ← lift (floordiv (len words) batch_size);
  let words := slice_to words (n_batches * batch_size) in
  idxs ← lift (range 0 (len words) batch_size);
  yield_each (λ idx, let batch := slice words idx (idx + batch_size) in
                     inner_loop batch window_size) idxs.
End SkipGram.

(** The radius drawn from raw draw [r] for window size [window_size]. *)
Definition radius (window_size r : Z) : Z := 1 + r mod window_size.

(** The context window the documentation of [get_target] describes: the
    tokens at positions max(0, idx-R) .. idx-1, then idx+1 ..
    min(len-1, idx+R). *)
Definition window_spec {A} (ws : list A) (idx R : Z) : list A :=
  slice ws (Z.max 0 (idx - R)) idx
  ++ slice ws (idx + 1) (Z.min (len ws - 1) (idx + R) + 1).

(** The tape that always draws [r]. *)
Definition const_tape (r : Z) : nat → Z := λ _, r.

(** What [get_target] returns once the radius [R] is drawn. *)
Definition target_of {A} (words : list A) (idx R : Z) : list A :=
  slice words (np_where (0 <? idx - R) (idx - R) 3) idx
  ++ slice words (idx + 1) (idx + R + 1).


(** The centers the inner loop of [get_batches] adds for the tokens [cs]
    whose targets are [targets]: each token once per context token. *)
Definition centers_of {A} (cs : list A) (targets : list (list A)) : list A :=
  mjoin (zip_with (λ c t, replicate (length t) c) cs targets).

(** The [i]-th consecutive chunk [ws[i*batch_size : (i+1)*batch_size]]. *)
Definition chunk {A} (ws : list A) (batch_size : Z) (i : nat) : list A :=
  slice ws (Z.of_nat i * batch_size) ((Z.of_nat i + 1) * batch_size).

(** The punctuation marks of one character and their sentinel tokens,
    between spaces; the tenth mark is the double hyphen. *)
Definition sentinels : list (ascii * str) :=
  [("."%char, lit " <PERIOD> ");
   (","%char, lit " <COMMA> ");
   (quotation_mark, lit " <QUOTATION_MARK> ");
   (";"%char, lit " <SEMICOLON> ");
   ("!"%char, lit " <EXCLAMATION_MARK> ");
   ("?"%char, lit " <QUESTION_MARK> ");
   ("("%char, lit " <LEFT_PAREN> ");
   (")"%char, lit " <RIGHT_PAREN> ");
   (":"%char, lit " <COLON> ")].

Definition sentinel (c : ascii) : option str := dict_get sentinels c.

Definition punctuation : list ascii := dict_keys sentinels.

(** The text with each punctuation mark replaced by its sentinel, read in
    one pass from left to right. *)
Fixpoint mark_punctuation (s : str) : str :=
  match s with
  | [] => []
  | c :: s' =>
      match sentinel c with
      | Some t => t ++ mark_punctuation s'
      | None =>
          if decide (c = hyphen) then
            match s' with
            | c' :: s'' =>
                if decide (c' = hyphen)
                then lit " <HYPHENS> " ++ mark_punctuation s''
                else c :: mark_punctuation s'
            | [] => [c]
            end
          else c :: mark_punctuation s'
      end
  end.

(** [sub in s] on strings: [sub] is a run of consecutive characters of [s]. *)
Definition contains (sub s : str) : Prop := ∃ pre post, s = pre ++ sub ++ post.

(** Whether a double hyphen occurs in [s]; [prev] tells that the character
    before [s] is a hyphen. *)
Fixpoint double_hyphen (prev : bool) (s : str) : bool :=
  match s with
  | [] => false
  | c :: s' =>
      if decide (c = hyphen) then prev || double_hyphen true s'
      else double_hyphen false s'
  end.

(** The replacements of [preprocess] before the double hyphen, and those
    after it. *)
Definition replace_marks_before (text : str) : str :=
  let text := replace text (lit ".") (lit " <PERIOD> ") in
  let text := replace text (lit ",") (lit " <COMMA> ") in
  let text := replace text [quotation_mark] (lit " <QUOTATION_MARK> ") in
  let text := replace text (lit ";") (lit " <SEMICOLON> ") in
  let text := replace text (lit "!") (lit " <EXCLAMATION_MARK> ") in
  let text := replace text (lit "?") (lit " <QUESTION_MARK> ") in
  let text := replace text (lit "(") (lit " <LEFT_PAREN> ") in
  let text := replace text (lit ")") (lit " <RIGHT_PAREN> ") in
  text.

Definition replace_marks_after (text : str) : str :=
  let text := replace text (lit "?") (lit " <QUESTION_MARK> ") in
  let text := replace text (lit ":") (lit " <COLON> ") in
  text.

(** The words in the order of their ids. *)
Definition sorted_vocab_of {K} `{EqDecision K} (words : list K) : list K :=
  sorted_reverse (counter_getitem (Counter words)) (dict_keys (Counter words)).

(** The frequency of [w] in [ws], as the subsampler computes it. *)
Definition word_frequency `{Float F} {K} `{EqDecision K} (ws : list K) (w : K) : F :=
  int_div (Z.of_nat (occurrences w ws)) (len ws).

(** The probability that the subsampler drops [w]. *)
Definition drop_probability `{Float F} {K} `{EqDecision K} (ws : list K) (w : K) : F :=
  float_sub (float_of_int 1) (np_sqrt (float_div threshold (word_frequency ws w))).

(** The binary64 numbers of the machine; the conversion of integers is
    exact below 2^53. *)
Definition float_of_Z (z : Z) : float :=
  if z <? 0 then PrimFloat.opp (PrimFloat.of_uint63 (Uint63.of_Z (- z)))
  else PrimFloat.of_uint63 (Uint63.of_Z z).

#[global] Instance binary64 : Float float := {|
  float_of_int := float_of_Z;
  int_div a b := PrimFloat.div (float_of_Z a) (float_of_Z b);
  float_div := PrimFloat.div;
  float_is_zero x := PrimFloat.eqb x 0%float;
  float_sub := PrimFloat.sub;
  float_lt := PrimFloat.ltb;
  np_sqrt := PrimFloat.sqrt;
  float_1e_5 := 0x1.4f8b588e368f1p-17%float;
|}.

(** A tape of draws that alternates between two values. *)
Definition alternate {T} (a b : T) : nat → T := λ n, if Nat.even n then a else b.

(** ** The checkpoint notebook

    A tensor is its shape and its entries in row-major order.  The entries
    are scalars of a type [R]; saving and loading only copy them. *)

Record tensor (R : Type) : Type := Tensor {
  shape : list Z;
  entries : list R;
}.
Arguments Tensor {R} shape entries.
Arguments shape {R} t.
Arguments entries {R} t.

(** The names of the parameters in a [state_dict]:
    ['hidden_layers.i.weight'], ['hidden_layers.i.bias'], ['output.weight']
    and ['output.bias']. *)
Inductive param_name : Type :=
  | hidden_weight (i : nat)
  | hidden_bias (i : nat)
  | output_weight
  | output_bias.

#[global] Instance param_name_eq_dec : EqDecision param_name.
Proof. solve_decision. Defined.

Module fc_model.

(** [nn.Linear]: a weight of shape [out_features, in_features] and a bias
    of shape [out_features]. *)
Record Linear (R : Type) : Type := {
  in_features : Z;
  out_features : Z;
  weight : tensor R;
  bias : tensor R;
}.
Arguments in_features {R} l.
Arguments out_features {R} l.
Arguments weight {R} l.
Arguments bias {R} l.

(** Modelled from the spec: the module [fc_model] is not among the
    sources.  [Network] has the structure the checkpoint notebook prints
    for its models: [hidden_layers], one [Linear] per hidden size, the
    first from [input_size] and each next from the size before it, and
    [output], a [Linear] from the last hidden size to [output_size]
    (the dropout layer has no parameter). *)
Record Network (R : Type) : Type := {
  hidden_layers : list (Linear R);
  output : Linear R;
}.
Arguments hidden_layers {R} n.
Arguments output {R} n.

Section Init.
Context {R : Type}.

(** The entries of a new parameter are drawn at random: [fresh] gives
    them, for the name and the shape of the parameter. *)
Definition new_Linear (fresh : param_name → list Z → list R)
    (kw kb : param_name) (i o : Z) : Linear R :=
  {| in_features := i; out_features := o;
     weight := Tensor [o; i] (fresh kw [o; i]);
     bias := Tensor [o] (fresh kb [o]) |}.

Fixpoint new_layers (fresh : param_name → list Z → list R)
    (n : nat) (i : Z) (sizes : list Z) : list (Linear R) :=
  match sizes with
  | [] => []
  | h :: sizes' =>
      new_Linear fresh (hidden_weight n) (hidden_bias n) i h
      :: new_layers fresh (S n) h sizes'
  end.

(** Modelled from the spec: [fc_model.Network(input_size, output_size,
    hidden_layers)].  The output layer reads the last hidden size: an
    empty list of hidden sizes has none. *)
Definition init (fresh : param_name → list Z → list R)
    (input_size output_size : Z) (hidden_layers : list Z) : result (Network R) :=
  match last hidden_layers with
  | None => Raise IndexError
  | Some h =>
      Ok {| hidden_layers := new_layers fresh 0 input_size hidden_layers;
            output := new_Linear fresh output_weight output_bias h output_size |}
  end.
End Init.

End fc_model.

Section Checkpoint.
Context {R : Type}.

(** [model.state_dict()]: the parameters by name, hidden layers first. *)
Definition layer_params (i : nat) (l : fc_model.Linear R) : list (param_name * tensor R) :=
  [(hidden_weight i, fc_model.weight l); (hidden_bias i, fc_model.bias l)].

Definition state_dict (model : fc_model.Network R) : list (param_name * tensor R) :=
  mjoin (imap layer_params (fc_model.hidden_layers model))
  ++ [(output_weight, fc_model.weight (fc_model.output model));
      (output_bias, fc_model.bias (fc_model.output model))].

(** Loading one parameter: a missing key and a tensor of another shape
    are errors; otherwise the parameter takes the entries that are
    loaded.  Tensors carry no dtype here: the stored tensor is taken to
    be of the dtype of the parameter, as the state of a model of the
    notebook is; torch would cast the entries of another dtype. *)
Definition load_param (sd : list (param_name * tensor R)) (k : param_name)
    (p : tensor R) : result (tensor R) :=
  match dict_get sd k with
  | None => Raise RuntimeError
  | Some t => if decide (shape t = shape p) then Ok t else Raise RuntimeError
  end.

Definition load_Linear (sd : list (param_name * tensor R)) (kw kb : param_name)
    (l : fc_model.Linear R) : result (fc_model.Linear R) :=
  w ← load_param sd kw (fc_model.weight l);
  b ← load_param sd kb (fc_model.bias l);
  mret {| fc_model.in_features := fc_model.in_features l;
          fc_model.out_features := fc_model.out_features l;
          fc_model.weight := w; fc_model.bias := b |}.

(** [model.load_state_dict(sd)], strict as it is by default: a key that
    the model does not have is an error too. *)
Definition load_state_dict (model : fc_model.Network R)
    (sd : list (param_name * tensor R)) : result (fc_model.Network R) :=
  if decide (Forall (λ k, k ∈ dict_keys (state_dict model)) (dict_keys sd)) then
    hs ← mapM (λ il : nat * fc_model.Linear R,
                 load_Linear sd (hidden_weight il.1) (hidden_bias il.1) il.2)
              (imap pair (fc_model.hidden_layers model));
    o ← load_Linear sd output_weight output_bias (fc_model.output model);
    mret {| fc_model.hidden_layers := hs; fc_model.output := o |}
  else Raise RuntimeError.

(** The dictionary that is saved. *)
Record Checkpoint : Type := {
  cp_input_size : Z;
  cp_output_size : Z;
  cp_hidden_layers : list Z;
  cp_state_dict : list (param_name * tensor R);
}.

(** [torch.save(obj, path)] and [torch.load(path)] on the files, a
    dictionary from paths to the objects saved. *)
Definition torch_save (files : list (string * Checkpoint)) (obj : Checkpoint)
    (path : string) : list (string * Checkpoint) :=
  dict_set files path obj.

Definition torch_load (files : list (string * Checkpoint)) (path : string)
    : result Checkpoint :=
  match dict_get files path with
  | Some obj => Ok obj
  | None => Raise FileNotFoundError
  end.

(** The checkpoint of a model of sizes [input_size] and [output_size]:
    the two sizes, the hidden sizes and the state. *)
Definition checkpoint_with (input_size output_size : Z)
    (model : fc_model.Network R) : Checkpoint :=
  {| cp_input_size := input_size;
     cp_output_size := output_size;
     cp_hidden_layers := fc_model.out_features <$> fc_model.hidden_layers model;
     cp_state_dict := state_dict model |}.

(** The cell that builds the checkpoint of [model]: the notebook builds
    its models with 784 inputs and 10 outputs, and the cell writes these
    two sizes as constants. *)
Definition checkpoint (model : fc_model.Network R) : Checkpoint :=
  {| cp_input_size := 784;
     cp_output_size := 10;
     cp_hidden_layers := fc_model.out_features <$> fc_model.hidden_layers model;
     cp_state_dict := state_dict model |}.

Definition load_checkpoint (fresh : param_name → list Z → list R)
    (files : list (string * Checkpoint)) (filepath : string)
    : result (fc_model.Network R) :=
  checkpoint ← torch_load files filepath;
  model ← fc_model.init fresh (cp_input_size checkpoint)
             (cp_output_size checkpoint) (cp_hidden_layers checkpoint);
  model ← load_state_dict model (cp_state_dict checkpoint);
  mret model.

(** The architecture of a model: its input size, its output size and its
    hidden sizes. *)
Definition input_size_of (model : fc_model.Network R) : option Z :=
  fc_model.in_features <$> head (fc_model.hidden_layers model).

Definition output_size_of (model : fc_model.Network R) : Z :=
  fc_model.out_features (fc_model.output model).

Definition hidden_sizes_of (model : fc_model.Network R) : list Z :=
  fc_model.out_features <$> fc_model.hidden_layers model.

(** A model as [fc_model.Network] builds it and training leaves it: the
    layers are chained from the input size, and each parameter has the
    shape of its layer. *)
Definition Linear_shaped (l : fc_model.Linear R) : Prop :=
  shape (fc_model.weight l) = [fc_model.out_features l; fc_model.in_features l]
  ∧ shape (fc_model.bias l) = [fc_model.out_features l].

Fixpoint chained (i : Z) (ls : list (fc_model.Linear R)) : Prop :=
  match ls with
  | [] => True
  | l :: ls' =>
      fc_model.in_features l = i ∧ Linear_shaped l
      ∧ chained (fc_model.out_features l) ls'
  end.

Definition well_formed (model : fc_model.Network R) (input_size output_size : Z) : Prop :=
  chained input_size (fc_model.hidden_layers model)
  ∧ Linear_shaped (fc_model.output model)
  ∧ Some (fc_model.in_features (fc_model.output model))
    = last (hidden_sizes_of model)
  ∧ fc_model.out_features (fc_model.output model) = output_size.
End Checkpoint.

Arguments Checkpoint R : clear implicits.

(** A model with two inputs, one hidden unit and one output, and the
    initial entries that are all zero. *)
Definition zero_entries : param_name → list Z → list Z :=
  λ _ sh, replicate (Z.to_nat (foldr Z.mul 1 sh)) 0.

Definition small_model : fc_model.Network Z :=
  {| fc_model.hidden_layers :=
       [{| fc_model.in_features := 2; fc_model.out_features := 1;
           fc_model.weight := Tensor [1; 2] [3; 4];
           fc_model.bias := Tensor [1] [5] |}];
     fc_model.output :=
       {| fc_model.in_features := 1; fc_model.out_features := 1;
          fc_model.weight := Tensor [1; 1] [6];
          fc_model.bias := Tensor [1] [7] |} |}.

(** The hidden parameters of a [state_dict], from layer [n] on. *)
Definition hidden_params {R} (n : nat) (ls : list (fc_model.Linear R))
    : list (param_name * tensor R) :=
  mjoin (imap (λ j, layer_params (n + j)) ls).

(** A model of the sizes of the notebook, 784 inputs and 10 outputs, with
    two hidden units. *)
Definition notebook_model : fc_model.Network Z :=
  {| fc_model.hidden_layers :=
       [fc_model.new_Linear zero_entries (hidden_weight 0) (hidden_bias 0) 784 2];
     fc_model.output :=
       fc_model.new_Linear zero_entries output_weight output_bias 2 10 |}.

(** Evaluate the string literals of the goal. *)
Ltac eval_lits :=
  repeat match goal with
         | |- context [lit ?s] =>
             let v := eval cbv in (lit s) in change (lit s) with v
         end.

(** ** The skip-gram notebook: encoding the words

    [[vocab_to_int[word] for word in words]], and the decoding
    [[int_to_vocab[idx] for idx in ids]] of the training loop. *)
Definition int_words_of {K} `{EqDecision K} (vocab_to_int : list (K * Z))
    (words : list K) : result (list Z) :=
  mapM (dict_getitem vocab_to_int) words.

Definition words_of {K} (int_to_vocab : list (Z * K)) (ids : list Z)
    : result (list K) :=
  mapM (dict_getitem int_to_vocab) ids.

(** [a] stands before [b] in [l]. *)
Definition before {A} (a b : A) (l : list A) : Prop :=
  ∃ x y z, l = x ++ a :: y ++ b :: z.

(** The trimming step of [preprocess]: the words that occur more than
    five times. *)
Definition trim (words : list str) : list str :=
  let word_counts := Counter words in
  filter (λ word, 5 < counter_getitem word_counts word) words.

(** The token of a sentinel: the sentinel without the space on each
    side. *)
Definition sentinel_token (t : str) : str := take (length t - 2) (drop 1 t).

(** The tokens that the draws keep, when [p w] is the probability to drop
    [w]: the token read at cursor [k] is kept when the draw at [k] is
    below [1 - p w]. *)
Fixpoint keep_by_draw `{Float F} {K} (p : K → F) (tape : nat → F) (k : nat)
    (l : list K) : list K :=
  match l with
  | [] => []
  | w :: l' =>
      if float_lt (tape k) (float_sub (float_of_int 1) (p w))
      then w :: keep_by_draw p tape (S k) l'
      else keep_by_draw p tape (S k) l'
  end.

(** * Properties *)

Example preprocess_run :
  preprocess (lit "The cat. The cat, the CAT; the cat (the cat) the dog--the cat!")
  = lit <$> ["the"; "cat"; "the"; "cat"; "the"; "cat"; "the"; "cat"; "the"; "cat";
             "the"; "the"; "cat"].
Proof. vm_compute. reflexivity. Qed.

Example tokenize_run :
  tokenize (lit "Hi, you--there: (ok)?")
  = lit <$> ["hi"; "<COMMA>"; "you"; "<HYPHENS>"; "there"; "<COLON>";
             "<LEFT_PAREN>"; "ok"; "<RIGHT_PAREN>"; "<QUESTION_MARK>"].
Proof. vm_compute. reflexivity. Qed.

Example create_lookup_tables_run :
  create_lookup_tables (lit <$> ["b"; "a"; "c"; "a"; "c"; "d"; "c"])
  = ([(lit "c", 0); (lit "a", 1); (lit "b", 2); (lit "d", 3)],
     [(0, lit "c"); (1, lit "a"); (2, lit "b"); (3, lit "d")]).
Proof. vm_compute. reflexivity. Qed.

Example get_target_run :
  get_target [0; 1; 2; 3; 4; 5; 6; 7; 8; 9] 5 5 (const_tape 3) 0%nat
  = Ok ([1; 2; 3; 4; 6; 7; 8; 9], 1%nat).
Proof. reflexivity. Qed.

Example get_batches_run :
  get_batches [0; 1; 2; 3; 4; 5; 6; 7; 8; 9] 4 5 (const_tape 4) 0%nat
  = Ok ([([0; 0; 0; 1; 1; 2], [1; 2; 3; 2; 3; 3]);
         ([4; 4; 4; 5; 5; 6], [5; 6; 7; 6; 7; 7])], 8%nat).
Proof. vm_compute. reflexivity. Qed.

(** ** Slices *)

Section SliceFacts.
Context {A : Type}.
Implicit Types l : list A.

Lemma slice_nat l (lo hi : nat) :
  slice l (Z.of_nat lo) (Z.of_nat hi) = take (hi - lo) (drop lo l).
Proof.
  unfold slice, slice_bound, len.
  destruct (Z.ltb_spec (Z.of_nat lo) 0); [lia|].
  destruct (Z.ltb_spec (Z.of_nat hi) 0); [lia|].
  destruct (decide (length l ≤ lo)%nat) as [Hlo|Hlo].
  - rewrite !(drop_ge l) by lia. by rewrite !take_nil.
  - replace (Z.to_nat (Z.of_nat lo `min` Z.of_nat (length l))) with lo by lia.
    destruct (decide (length l ≤ hi)%nat).
    + rewrite !take_ge; [done|rewrite length_drop; lia..].
    + f_equal. lia.
Qed.

Lemma slice_nonneg l lo hi :
  0 ≤ lo → 0 ≤ hi →
  slice l lo hi = take (Z.to_nat hi - Z.to_nat lo) (drop (Z.to_nat lo) l).
Proof.
  intros. rewrite <-(Z2Nat.id lo), <-(Z2Nat.id hi) at 1 by done.
  apply slice_nat.
Qed.

Lemma slice_to_nat l (hi : nat) : slice_to l (Z.of_nat hi) = take hi l.
Proof.
  unfold slice_to. change 0 with (Z.of_nat 0).
  rewrite slice_nat. simpl. f_equal. lia.
Qed.

Lemma slice_fmap {B} (f : A → B) l lo hi :
  slice (f <$> l) lo hi = f <$> slice l lo hi.
Proof.
  unfold slice, len. by rewrite length_fmap, fmap_take, fmap_drop.
Qed.

Lemma slice_lookup l lo hi (j : nat) x :
  0 ≤ lo → 0 ≤ hi →
  slice l lo hi !! j = Some x →
  l !! (Z.to_nat lo + j)%nat = Some x ∧ lo + Z.of_nat j < hi.
Proof.
  intros Hlo Hhi. rewrite slice_nonneg by done.
  intros [Hj Hx]%lookup_take_Some. rewrite lookup_drop in Hj. split; [done|lia].
Qed.
End SliceFacts.

(** ** [get_target] *)

Lemma radius_range window_size r :
  1 ≤ window_size → 1 ≤ radius window_size r ≤ window_size.
Proof. intros. unfold radius. pose proof (Z.mod_pos_bound r window_size). lia. Qed.

(** Every radius of [1, window_size] is drawn from some raw draw. *)
Lemma radius_onto window_size R :
  1 ≤ R ≤ window_size → radius window_size (R - 1) = R.
Proof. intros. unfold radius. rewrite Z.mod_small; lia. Qed.

(** The window sizes that [np.random.randint(1, window_size+1)] draws a
    radius for are those of [1, int64_max]. *)
Lemma randint_radius window_size tape k :
  1 ≤ window_size ≤ int64_max →
  randint 1 (window_size + 1) tape k = Ok (radius window_size (tape k), S k).
Proof.
  intros. unfold randint, radius, int64_min, int64_max in *.
  destruct (Z.leb_spec (-9223372036854775808) 1); [|lia].
  destruct (Z.leb_spec (window_size + 1 - 1) 9223372036854775807); [|lia].
  destruct (Z.ltb_spec 1 (window_size + 1)); [|lia].
  by replace (window_size + 1 - 1) with window_size by lia.
Qed.

Lemma randint_outside window_size tape k :
  ¬ (1 ≤ window_size ≤ int64_max) →
  randint 1 (window_size + 1) tape k = Raise ValueError.
Proof.
  intros. unfold randint, int64_min, int64_max in *.
  destruct (Z.leb_spec (window_size + 1 - 1) 9223372036854775807);
    destruct (Z.ltb_spec 1 (window_size + 1)); try done; lia.
Qed.

Lemma get_target_eq {A} (ws : list A) idx window_size tape k :
  1 ≤ window_size ≤ int64_max →
  get_target ws idx window_size tape k
  = Ok (target_of ws idx (radius window_size (tape k)), S k).
Proof.
  intros. unfold get_target, mbind, Gen_bind. by rewrite randint_radius.
Qed.

Lemma get_target_raise {A} (ws : list A) idx window_size tape k :
  ¬ (1 ≤ window_size ≤ int64_max) →
  get_target ws idx window_size tape k = Raise ValueError.
Proof.
  intros. unfold get_target, mbind, Gen_bind. by rewrite randint_outside.
Qed.


Lemma enumerate_snd {A} (ws : list A) : (enumerate ws).*2 = ws.
Proof.
  apply list_eq; intros i. unfold enumerate.
  rewrite list_lookup_fmap, list_lookup_imap. by destruct (ws !! i).
Qed.

Lemma target_of_fmap {A B} (f : A → B) (ws : list A) idx R :
  target_of (f <$> ws) idx R = f <$> target_of ws idx R.
Proof. unfold target_of. by rewrite fmap_app, !slice_fmap. Qed.

Lemma slice_enumerate_position {A} (ws : list A) lo hi p x :
  0 ≤ lo → 0 ≤ hi → (p, x) ∈ slice (enumerate ws) lo hi → lo ≤ p < hi.
Proof.
  intros Hlo Hhi [j Hj]%list_elem_of_lookup.
  apply slice_lookup in Hj as [Hj ?]; [|done..].
  unfold enumerate in Hj. rewrite list_lookup_imap in Hj.
  destruct (ws !! _); simplify_eq/=. lia.
Qed.

(** Away from the start of the list the window is the documented one. *)
Lemma target_of_window_spec {A} (ws : list A) idx R :
  1 ≤ R → 0 < idx - R → idx < len ws →
  target_of ws idx R = window_spec ws idx R.
Proof.
  intros HR Hfar Hidx. unfold target_of, window_spec, np_where.
  destruct (Z.ltb_spec 0 (idx - R)); [|lia].
  rewrite Z.max_r by lia. f_equal.
  unfold slice, slice_bound.
  destruct (Z.ltb_spec (idx + 1) 0); [lia|].
  destruct (Z.ltb_spec (idx + R + 1) 0); [lia|].
  destruct (Z.ltb_spec (Z.min (len ws - 1) (idx + R) + 1) 0); [lia|].
  do 2 f_equal. lia.
Qed.

(** C1, on the example of the notebook: for the idx=2 token and R=2 the
    documentation announces the four values [5233, 58, 10571, 27349], the
    window of the claim; [get_target] returns only the two tokens that
    follow, because its left bound falls back to 3 instead of 0. *)
Theorem get_target_documented_example :
  let ws := [5233; 58; 741; 10571; 27349; 0; 15067; 58112; 3580; 58; 10712] in
  radius 5 1 = 2
  ∧ window_spec ws 2 2 = [5233; 58; 10571; 27349]
  ∧ get_target ws 2 5 (const_tape 1) 0%nat = Ok ([10571; 27349], 1%nat).
Proof. by vm_compute. Qed.

(** C10: no token that [get_target] returns comes from position [idx].
    Run on the enumerated list, where each token carries its position,
    whatever the draw and the window size: when [get_target] returns, no
    returned token carries the position [idx], and the tokens are those
    of the run on the plain list.  It does return, after one draw, for
    every window size that [np.random.randint] draws a radius for, from 1
    to 2^63 - 1; for the others it stops with [ValueError]. *)
Theorem get_target_excludes_center {A} (ws : list A) idx window_size tape k :
  0 ≤ idx < len ws →
  (∀ (res : list (Z * A)) k',
     get_target (enumerate ws) idx window_size tape k = Ok (res, k') →
     get_target ws idx window_size tape k = Ok (res.*2, k')
     ∧ ∀ p x, (p, x) ∈ res → p ≠ idx)
  ∧ (1 ≤ window_size ≤ int64_max →
     ∃ res : list (Z * A),
       get_target (enumerate ws) idx window_size tape k = Ok (res, S k))
  ∧ (¬ (1 ≤ window_size ≤ int64_max) →
     get_target ws idx window_size tape k = Raise ValueError).
Proof.
  intros Hidx. split_and!.
  - intros res k'. destruct (decide (1 ≤ window_size ≤ int64_max)) as [Hw|Hw].
    + rewrite !get_target_eq by done. intros [= <- <-]. split.
      * by rewrite <-target_of_fmap, enumerate_snd.
      * pose proof (radius_range window_size (tape k) (proj1 Hw)) as HR.
        intros p x [Hin|Hin]%elem_of_app.
        -- apply slice_enumerate_position in Hin; [lia| |lia].
           unfold np_where. case_match; lia.
        -- apply slice_enumerate_position in Hin; lia.
    + by rewrite get_target_raise.
  - intros Hw. eexists. by apply get_target_eq.
  - apply get_target_raise.
Qed.

Lemma get_target_excludes_center_witness :
  ∃ res : list (Z * Z),
    get_target (enumerate [10; 20; 30; 40; 50]) 2 5 (const_tape 0) 0%nat = Ok (res, 1%nat)
    ∧ get_target [10; 20; 30; 40; 50] 2 5 (const_tape 0) 0%nat = Ok (res.*2, 1%nat)
    ∧ ∀ p x, (p, x) ∈ res → p ≠ 2.
Proof.
  destruct (get_target_excludes_center [10; 20; 30; 40; 50] 2 5 (const_tape 0) 0%nat)
    as (Hex & Hret & _).
  - by vm_compute.
  - destruct Hret as [res Hres]; [by vm_compute|].
    exists res. split; [exact Hres|]. by apply Hex.
Defined.

(** ** [get_batches] *)

Lemma range_unit (n : nat) : range 0 (Z.of_nat n) 1 = Ok (Z.of_nat <$> seq 0 n).
Proof.
  unfold range, range_len. simpl.
  replace (Z.to_nat ((Z.of_nat n - 0 + 1 - 1) / 1)) with n
    by (rewrite Z.div_1_r; lia).
  f_equal. apply list_fmap_ext. intros; lia.
Qed.

Lemma range_step (n : nat) bs :
  0 < bs →
  range 0 (Z.of_nat n * bs) bs = Ok ((λ i : nat, Z.of_nat i * bs) <$> seq 0 n).
Proof.
  intros Hbs. unfold range, range_len.
  destruct (Z.eqb_spec bs 0); [lia|].
  destruct (Z.ltb_spec 0 bs); [|lia].
  replace (Z.to_nat ((Z.of_nat n * bs - 0 + bs - 1) / bs)) with n; [done|].
  replace (Z.of_nat n * bs - 0 + bs - 1) with (bs - 1 + Z.of_nat n * bs) by lia.
  rewrite Z.div_add, Z.div_small by lia. lia.
Qed.

Lemma range_negative_step stop step :
  0 ≤ stop → step < 0 → range 0 stop step = Ok [].
Proof.
  intros Hstop Hstep. unfold range, range_len.
  destruct (Z.eqb_spec step 0); [lia|].
  destruct (Z.ltb_spec 0 step); [lia|].
  assert ((0 - stop - step - 1) / - step < 1) as Hq
    by (apply Z.div_lt_upper_bound; lia).
  by replace (Z.to_nat ((0 - stop - step - 1) / - step)) with 0%nat by lia.
Qed.

(** The equations of the loops. *)
Lemma bind_eq {T A B} (m : Gen T A) (f : A → Gen T B) tape k :
  (m ≫= f) tape k
  = match m tape k with Ok (a, k') => f a tape k' | Raise e => Raise e end.
Proof. done. Qed.

Lemma bind_lift_Ok {T A B} (r : result A) (f : A → Gen T B) a tape k :
  r = Ok a → (lift r ≫= f) tape k = f a tape k.
Proof. by intros ->. Qed.

Lemma bind_lift_Raise {T A B} (r : result A) (f : A → Gen T B) e tape k :
  r = Raise e → (lift r ≫= f) tape k = Raise e.
Proof. by intros ->. Qed.

Lemma for_each_cons {T A B} (body : B → A → Gen T B) acc a l tape k :
  for_each body acc (a :: l) tape k
  = match body acc a tape k with
    | Ok (acc', k') => for_each body acc' l tape k'
    | Raise e => Raise e
    end.
Proof. done. Qed.

Lemma yield_each_cons {T A B} (body : A → Gen T B) a l tape k :
  yield_each body (a :: l) tape k
  = match body a tape k with
    | Ok (b, k') =>
        match yield_each body l tape k' with
        | Ok (bs, k'') => Ok (b :: bs, k'')
        | Raise e => Raise e
        end
    | Raise e => Raise e
    end.
Proof.
  simpl. rewrite bind_eq. destruct (body a tape k) as [[b k']|]; [|done].
  rewrite bind_eq. by destruct (yield_each body l tape k') as [[bs k'']|].
Qed.

Lemma yield_each_ext {T A B} (body body' : A → Gen T B) l tape k :
  (∀ a k, a ∈ l → body a tape k = body' a tape k) →
  yield_each body l tape k = yield_each body' l tape k.
Proof.
  revert k. induction l as [|a l IH]; intros k Hext; [done|].
  rewrite !yield_each_cons, <-Hext by left.
  destruct (body a tape k) as [[b k']|]; [|done].
  rewrite IH; [done|]. intros; apply Hext. by right.
Qed.

Lemma yield_each_fmap {T A B C} (g : A → B) (body : B → Gen T C) l tape k :
  yield_each body (g <$> l) tape k = yield_each (λ a, body (g a)) l tape k.
Proof.
  revert k. induction l as [|a l IH]; intros k; [done|].
  rewrite fmap_cons, !yield_each_cons.
  destruct (body (g a) tape k) as [[b k']|]; [|done]. by rewrite IH.
Qed.

(** A generator whose body always succeeds on [c] draws yields once per
    element, the [i]-th time from cursor [k + i * c]. *)
Lemma yield_each_steps {T A B} (body : A → Gen T B) l (c : nat) tape k :
  (∀ a k, a ∈ l → ∃ b, body a tape k = Ok (b, (k + c)%nat)) →
  ∃ bs,
    yield_each body l tape k = Ok (bs, (k + length l * c)%nat)
    ∧ length bs = length l
    ∧ ∀ i a b, l !! i = Some a → bs !! i = Some b →
        body a tape (k + i * c)%nat = Ok (b, (k + i * c + c)%nat).
Proof.
  revert k. induction l as [|a l IH]; intros k Hbody.
  - exists []. simpl. rewrite Nat.add_0_r. by split_and!.
  - destruct (Hbody a k) as [b Hb]; [left|].
    destruct (IH (k + c)%nat) as (bs & Hbs & Hlen & Hith).
    { intros; apply Hbody. by right. }
    exists (b :: bs). rewrite yield_each_cons, Hb, Hbs. split_and!.
    + do 2 f_equal. simpl. lia.
    + simpl. by rewrite Hlen.
    + intros [|i] a' b' Ha Hb'; simplify_eq/=.
      * by rewrite Nat.add_0_r.
      * specialize (Hith i a' b' Ha Hb').
        by replace (k + (c + i * c))%nat with (k + c + i * c)%nat by lia.
Qed.

Section BatchFacts.
Context {A : Type}.
Implicit Types batch chunk ws : list A.

Lemma index_middle (pre : list A) c suf :
  index (pre ++ c :: suf) (Z.of_nat (length pre)) = Ok c.
Proof.
  unfold index. destruct (Z.ltb_spec (Z.of_nat (length pre)) 0); [lia|].
  destruct (Z.ltb_spec (Z.of_nat (length pre)) 0); [lia|].
  rewrite Nat2Z.id, list_lookup_middle; done.
Qed.

(** The inner loop from position [length pre] on: it draws one target
    per remaining token, and extends [x] and [y] with them. *)
Lemma for_each_batch_step (pre suf : list A) window_size x0 y0 tape k :
  1 ≤ window_size ≤ int64_max →
  let positions := Z.of_nat <$> seq (length pre) (length suf) in
  ∃ targets,
    yield_each (λ ii, get_target (pre ++ suf) ii window_size) positions tape k
    = Ok (targets, (k + length suf)%nat)
    ∧ length targets = length suf
    ∧ for_each (batch_step (pre ++ suf) window_size) (x0, y0) positions tape k
      = Ok ((x0 ++ centers_of suf targets, y0 ++ mjoin targets), (k + length suf)%nat).
Proof.
  intros Hw. revert pre x0 y0 k.
  induction suf as [|c suf IH]; intros pre x0 y0 k positions; subst positions.
  - exists []. unfold centers_of. simpl. rewrite !app_nil_r, Nat.add_0_r. done.
  - pose (t := target_of (pre ++ c :: suf) (Z.of_nat (length pre))
                 (radius window_size (tape k))).
    destruct (IH (pre ++ [c]) (x0 ++ replicate (length t) c) (y0 ++ t) (S k))
      as (targets & Hys & Hlen & Hfor).
    rewrite length_app, Nat.add_1_r, <-app_assoc in Hys, Hfor.
    change ([c] ++ suf) with (c :: suf) in Hys, Hfor.
    cbn [length seq]. rewrite fmap_cons.
    exists (t :: targets). split_and!.
    + rewrite yield_each_cons, get_target_eq, Hys by done.
      do 2 f_equal. lia.
    + simpl. by rewrite Hlen.
    + rewrite for_each_cons. unfold batch_step at 1.
      rewrite bind_lift_Ok with (a := c) by apply index_middle.
      rewrite bind_eq, get_target_eq by done. fold t.
      unfold mret at 1, Gen_ret at 1, repeat_list, len. cbn [fst snd].
      rewrite Nat2Z.id, Hfor.
      unfold centers_of. simpl. rewrite <-!app_assoc. do 2 f_equal. lia.
Qed.

Lemma inner_loop_eq chunk window_size tape k :
  1 ≤ window_size ≤ int64_max →
  ∃ targets,
    yield_each (λ ii, get_target chunk ii window_size)
      (Z.of_nat <$> seq 0 (length chunk)) tape k
    = Ok (targets, (k + length chunk)%nat)
    ∧ length targets = length chunk
    ∧ inner_loop chunk window_size tape k
      = Ok ((centers_of chunk targets, mjoin targets), (k + length chunk)%nat).
Proof.
  intros Hw.
  destruct (for_each_batch_step [] chunk window_size [] [] tape k Hw)
    as (targets & Hys & Hlen & Hfor).
  exists targets. split_and!; [done..|].
  unfold inner_loop, len. by rewrite bind_lift_Ok with (1 := range_unit _).
Qed.

Lemma zip_replicate (c : A) (t : list A) :
  zip (replicate (length t) c) t = pair c <$> t.
Proof. induction t; simpl; by f_equal. Qed.

Lemma zip_centers (cs : list A) (targets : list (list A)) :
  zip (centers_of cs targets) (mjoin targets)
  = mjoin (zip_with (λ c t, pair c <$> t) cs targets).
Proof.
  unfold centers_of. revert targets.
  induction cs as [|c cs IH]; intros [|t targets]; simpl; try done.
  etrans; [apply zip_with_app; by rewrite length_replicate|].
  f_equal; [apply zip_replicate|apply IH].
Qed.
Lemma length_centers_of (cs : list A) (targets : list (list A)) :
  length cs = length targets →
  length (centers_of cs targets) = length (mjoin targets).
Proof.
  unfold centers_of. revert targets.
  induction cs as [|c cs IH]; intros [|t targets] Hlen; simplify_eq/=; [done|].
  rewrite !length_app, length_replicate. f_equal. by apply IH.
Qed.

(** The chunks below the last full batch are read off the list. *)
Lemma chunk_take_drop ws bs (i : nat) :
  0 < bs →
  chunk ws bs i = take (Z.to_nat bs) (drop (i * Z.to_nat bs) ws).
Proof.
  intros Hbs. unfold chunk. rewrite slice_nonneg by lia.
  f_equal; [|f_equal]; lia.
Qed.

Lemma chunk_length ws bs (i : nat) :
  0 < bs → Z.of_nat i < len ws / bs → len (chunk ws bs i) = bs.
Proof.
  intros Hbs Hi. rewrite chunk_take_drop by done.
  pose proof (Z.mul_div_le (len ws) bs Hbs). unfold len in *.
  rewrite length_take, length_drop. nia.
Qed.

Lemma chunk_slice_to ws bs (n i : nat) :
  0 < bs → (i < n)%nat →
  slice (slice_to ws (Z.of_nat n * bs)) (Z.of_nat i * bs) (Z.of_nat i * bs + bs)
  = chunk ws bs i.
Proof.
  intros Hbs Hi. rewrite chunk_take_drop by done.
  replace (Z.of_nat n * bs) with (Z.of_nat (n * Z.to_nat bs)) by lia.
  rewrite slice_to_nat, slice_nonneg by lia.
  replace (Z.to_nat (Z.of_nat i * bs + bs) - Z.to_nat (Z.of_nat i * bs))%nat
    with (Z.to_nat bs) by lia.
  replace (Z.to_nat (Z.of_nat i * bs)) with (i * Z.to_nat bs)%nat by lia.
  rewrite !take_drop_commute, take_take. do 2 f_equal. nia.
Qed.

(** [get_batches] runs the inner loop on the chunks, one after the
    other, as many times as there are full batches. *)
Lemma get_batches_eq ws bs window_size tape k :
  0 < bs →
  get_batches ws bs window_size tape k
  = yield_each (λ i, inner_loop (chunk ws bs i) window_size)
      (seq 0 (Z.to_nat (len ws / bs))) tape k.
Proof.
  intros Hbs. unfold get_batches.
  assert (floordiv (len ws) bs = Ok (len ws / bs)) as Hdiv.
  { unfold floordiv. by destruct (Z.eqb_spec bs 0); [lia|]. }
  rewrite bind_lift_Ok with (1 := Hdiv).
  pose proof (Z.div_pos (len ws) bs ltac:(unfold len; lia) Hbs) as Hn.
  pose proof (Z.mul_div_le (len ws) bs Hbs) as Hle.
  set (n := Z.to_nat (len ws / bs)).
  replace (len ws / bs) with (Z.of_nat n) in * by lia.
  assert (len (slice_to ws (Z.of_nat n * bs)) = Z.of_nat n * bs) as ->.
  { replace (Z.of_nat n * bs) with (Z.of_nat (n * Z.to_nat bs)) by lia.
    rewrite slice_to_nat. unfold len in *. rewrite length_take. lia. }
  rewrite bind_lift_Ok with (1 := range_step n bs Hbs).
  rewrite yield_each_fmap. apply yield_each_ext.
  intros i k0 [_ Hi]%elem_of_seq. simpl. by rewrite chunk_slice_to.
Qed.
Lemma chunk_app (l t : list A) bs (i : nat) :
  0 < bs → (Z.of_nat i + 1) * bs ≤ len l →
  chunk (l ++ t) bs i = chunk l bs i.
Proof.
  intros Hbs Hi. rewrite !chunk_take_drop by done. unfold len in Hi.
  rewrite drop_app_le, take_app_le; [done| |nia].
  rewrite length_drop. nia.
Qed.

(** On a window size that [np.random.randint] refuses, the inner loop
    stops at its first draw. *)
Lemma inner_loop_raise batch window_size tape k :
  batch ≠ [] → ¬ (1 ≤ window_size ≤ int64_max) →
  inner_loop batch window_size tape k = Raise ValueError.
Proof.
  intros Hne Hw. destruct batch as [|c batch]; [done|].
  unfold inner_loop, len. rewrite bind_lift_Ok with (1 := range_unit _).
  cbn [length seq]. rewrite fmap_cons, for_each_cons. unfold batch_step at 1.
  rewrite bind_lift_Ok with (a := c) by apply (index_middle [] c batch).
  by rewrite bind_eq, get_target_raise.
Qed.

(** Outside the positive batch sizes and the window sizes that can be
    drawn, [get_batches] yields no batch: it stops with an error, or there
    is no full batch. *)
Lemma get_batches_outside ws bs window_size tape k batches k' :
  ¬ (0 < bs ∧ 1 ≤ window_size ≤ int64_max) →
  get_batches ws bs window_size tape k = Ok (batches, k') →
  batches = [].
Proof.
  intros Hout. destruct (decide (0 < bs)) as [Hbs|Hbs].
  - rewrite get_batches_eq by done.
    destruct (Z.to_nat (len ws / bs)) as [|n] eqn:Hn; [by intros [= <- _]|].
    cbn [seq]. rewrite yield_each_cons, inner_loop_raise; [done| |tauto].
    pose proof (Z.div_pos (len ws) bs ltac:(unfold len; lia) Hbs).
    pose proof (chunk_length ws bs 0 Hbs ltac:(lia)) as Hlen.
    intros Hnil. rewrite Hnil in Hlen. unfold len in Hlen. simpl in Hlen. lia.
  - unfold get_batches. unfold floordiv.
    destruct (Z.eqb_spec bs 0) as [->|Hne]; [done|].
    rewrite bind_lift_Ok with (a := len ws / bs) by done.
    rewrite bind_lift_Ok with (a := []); [by intros [= <- _]|].
    apply range_negative_step; unfold len; lia.
Qed.

(** The run of [get_batches]: one batch per full chunk, the [i]-th from
    the inner loop on chunk [i], which reads [batch_size] draws. *)
Lemma get_batches_steps ws bs window_size tape k :
  0 < bs → 1 ≤ window_size ≤ int64_max →
  let n := Z.to_nat (len ws / bs) in
  let b := Z.to_nat bs in
  ∃ batches,
    get_batches ws bs window_size tape k = Ok (batches, (k + n * b)%nat)
    ∧ length batches = n
    ∧ ∀ i xy, batches !! i = Some xy →
        inner_loop (chunk ws bs i) window_size tape (k + i * b)%nat
        = Ok (xy, (k + i * b + b)%nat).
Proof.
  intros Hbs Hw n b. rewrite get_batches_eq by done. fold n.
  destruct (yield_each_steps (λ i, inner_loop (chunk ws bs i) window_size)
              (seq 0 n) b tape k) as (batches & Hrun & Hlen & Hith).
  { intros i k0 [_ Hi]%elem_of_seq.
    destruct (inner_loop_eq (chunk ws bs i) window_size tape k0 Hw)
      as (targets & _ & _ & Hloop).
    pose proof (Z.div_pos (len ws) bs ltac:(unfold len; lia) Hbs).
    assert (length (chunk ws bs i) = b) as Hb.
    { pose proof (chunk_length ws bs i Hbs ltac:(lia)). unfold len in *. lia. }
    rewrite Hb in Hloop. eauto. }
  rewrite length_seq in Hrun, Hlen. exists batches. split_and!; [done..|].
  intros i xy Hxy.
  assert (i < n)%nat as Hi by (apply lookup_lt_Some in Hxy; lia).
  apply (Hith i i xy); [|done]. by rewrite lookup_seq_lt.
Qed.
End BatchFacts.

(** C2, with the window sizes it holds for: for a positive batch size
    and a window size from 1 to 2^63 - 1, [get_batches] yields
    floor(len(ws)/batch_size) batches, after one draw per token of the
    chunks; the [i]-th is what the inner loop returns on the chunk
    [ws[i*batch_size : (i+1)*batch_size]] alone, which has [batch_size]
    tokens, from the cursor that the [i] chunks before it have left; the
    len(ws) mod batch_size trailing tokens are not used: any other tail
    shorter than a batch gives the same batches. *)
Theorem get_batches_chunks {A} (ws : list A) batch_size window_size tape k :
  0 < batch_size → 1 ≤ window_size ≤ int64_max →
  let n := Z.to_nat (len ws / batch_size) in
  let b := Z.to_nat batch_size in
  ∃ batches,
    get_batches ws batch_size window_size tape k = Ok (batches, (k + n * b)%nat)
    ∧ length batches = n
    ∧ (∀ i xy, batches !! i = Some xy →
         len (chunk ws batch_size i) = batch_size
         ∧ inner_loop (chunk ws batch_size i) window_size tape (k + i * b)%nat
           = Ok (xy, (k + i * b + b)%nat))
    ∧ ∃ used trailing,
        ws = used ++ trailing
        ∧ len trailing = len ws `mod` batch_size
        ∧ ∀ tail, len tail < batch_size →
            get_batches (used ++ tail) batch_size window_size tape k
            = Ok (batches, (k + n * b)%nat).
Proof.
  intros Hbs Hw n b.
  destruct (get_batches_steps ws batch_size window_size tape k Hbs Hw)
    as (batches & Hrun & Hlen & Hith).
  pose proof (Z.div_pos (len ws) batch_size ltac:(unfold len; lia) Hbs) as Hn.
  pose proof (Z.mul_div_le (len ws) batch_size Hbs) as Hle.
  exists batches. split_and!; [done..| |].
  - intros i xy Hxy. split; [|by apply Hith].
    apply chunk_length; [done|]. apply lookup_lt_Some in Hxy. lia.
  - set (N := (n * Z.to_nat batch_size)%nat).
    assert (N ≤ length ws)%nat as HN by (unfold len in *; lia).
    exists (take N ws), (drop N ws). split_and!.
    + by rewrite take_drop.
    + unfold len in *. rewrite length_drop, Z.mod_eq by lia. lia.
    + intros tail Htail.
      assert (len (take N ws ++ tail) / batch_size = Z.of_nat n) as Hdiv.
      { unfold len in *. rewrite length_app, length_take_le by done.
        replace (Z.of_nat (N + length tail))
          with (Z.of_nat (length tail) + Z.of_nat n * batch_size) by lia.
        rewrite Z.div_add, Z.div_small by lia. lia. }
      trans (get_batches ws batch_size window_size tape k); [|exact Hrun].
      rewrite !get_batches_eq, Hdiv, Nat2Z.id by done. fold n.
      apply yield_each_ext. intros i k0 [_ Hi]%elem_of_seq.
      assert ((Z.of_nat i + 1) * batch_size ≤ len (take N ws)) as Hfit.
      { unfold len. rewrite length_take_le by done. nia. }
      rewrite chunk_app by done.
      rewrite <-(take_drop N ws) at 2. by rewrite chunk_app.
Qed.

Lemma get_batches_chunks_witness :
  ∃ batches,
    get_batches [0; 1; 2; 3; 4; 5; 6; 7; 8; 9] 4 5 (const_tape 4) 0%nat
    = Ok (batches, 8%nat)
    ∧ length batches = 2%nat
    ∧ (∀ i xy, batches !! i = Some xy →
         len (chunk [0; 1; 2; 3; 4; 5; 6; 7; 8; 9] 4 i) = 4
         ∧ inner_loop (chunk [0; 1; 2; 3; 4; 5; 6; 7; 8; 9] 4 i) 5
             (const_tape 4) (0 + i * 4)%nat = Ok (xy, (0 + i * 4 + 4)%nat))
    ∧ ∃ used trailing,
        [0; 1; 2; 3; 4; 5; 6; 7; 8; 9] = used ++ trailing
        ∧ len trailing = 2
        ∧ ∀ tail, len tail < 4 →
            get_batches (used ++ tail) 4 5 (const_tape 4) 0%nat = Ok (batches, 8%nat).
Proof.
  apply (get_batches_chunks [0; 1; 2; 3; 4; 5; 6; 7; 8; 9] 4 5 (const_tape 4) 0%nat).
  - lia.
  - by vm_compute.
Defined.

(** C2, as it is stated, for any window size: with a window size of 0
    the generator stops with [ValueError] at its first draw and yields no
    batch, where the claim wants floor(10/4) = 2 batches. *)
Lemma get_batches_chunks_window_zero :
  get_batches [0; 1; 2; 3; 4; 5; 6; 7; 8; 9] 4 0 (const_tape 4) 0%nat
  = Raise ValueError
  ∧ ¬ ∃ batches k',
      get_batches [0; 1; 2; 3; 4; 5; 6; 7; 8; 9] 4 0 (const_tape 4) 0%nat
      = Ok (batches, k')
      ∧ length batches = Z.to_nat (len [0; 1; 2; 3; 4; 5; 6; 7; 8; 9] / 4).
Proof.
  split; [by vm_compute|].
  intros (batches & k' & Hrun & _). by vm_compute in Hrun.
Qed.

(** C3: in every batch [(x, y)] that [get_batches] yields, whatever the
    batch size, the window size and the draws, the two lists have the
    same length, and the pairs [(x[j], y[j])] are, for each position [ii]
    of the chunk in order, the center [chunk[ii]] with each token that
    [get_target chunk ii window_size] returned at its turn, in that
    order.  And [get_batches] does yield its floor(len(ws)/batch_size)
    batches for a positive batch size and a window size from 1 to
    2^63 - 1. *)
Theorem get_batches_pairs {A} (ws : list A) batch_size window_size tape k :
  (∀ batches k',
     get_batches ws batch_size window_size tape k = Ok (batches, k') →
     ∀ i x y, batches !! i = Some (x, y) →
       length x = length y
       ∧ ∃ targets,
           let batch := chunk ws batch_size i in
           let k0 := (k + i * Z.to_nat batch_size)%nat in
           yield_each (λ ii, get_target batch ii window_size)
             (Z.of_nat <$> seq 0 (length batch)) tape k0
           = Ok (targets, (k0 + length batch)%nat)
           ∧ length targets = length batch
           ∧ zip x y = mjoin (zip_with (λ c t, pair c <$> t) batch targets))
  ∧ (0 < batch_size → 1 ≤ window_size ≤ int64_max →
     ∃ batches,
       get_batches ws batch_size window_size tape k
       = Ok (batches,
             (k + Z.to_nat (len ws / batch_size) * Z.to_nat batch_size)%nat)
       ∧ length batches = Z.to_nat (len ws / batch_size)).
Proof.
  split.
  - intros batches k' Hrun i x y Hxy.
    destruct (decide (0 < batch_size ∧ 1 ≤ window_size ≤ int64_max))
      as [[Hbs Hw]|Hout].
    + destruct (get_batches_steps ws batch_size window_size tape k Hbs Hw)
        as (batches' & Hrun' & Hlen & Hith).
      rewrite Hrun' in Hrun. injection Hrun as <- <-.
      specialize (Hith i (x, y) Hxy).
      destruct (inner_loop_eq (chunk ws batch_size i) window_size tape
                  (k + i * Z.to_nat batch_size)%nat Hw)
        as (targets & Hys & Hlt & Hloop).
      rewrite Hith in Hloop. simplify_eq. split.
      * by apply length_centers_of.
      * exists targets. by split_and!; [..|apply zip_centers].
    + apply get_batches_outside in Hrun; [|done]. by subst.
  - intros Hbs Hw.
    destruct (get_batches_steps ws batch_size window_size tape k Hbs Hw)
      as (batches & Hrun & Hlen & _).
    by exists batches.
Qed.

Lemma get_batches_pairs_witness :
  ∃ batches,
    get_batches [0; 1; 2; 3; 4; 5; 6; 7; 8; 9] 4 5 (const_tape 4) 0%nat
    = Ok (batches, 8%nat)
    ∧ length batches = 2%nat
    ∧ ∀ i x y, batches !! i = Some (x, y) →
        length x = length y
        ∧ ∃ targets,
            let batch := chunk [0; 1; 2; 3; 4; 5; 6; 7; 8; 9] 4 i in
            yield_each (λ ii, get_target batch ii 5)
              (Z.of_nat <$> seq 0 (length batch)) (const_tape 4) (0 + i * 4)%nat
            = Ok (targets, (0 + i * 4 + length batch)%nat)
            ∧ length targets = length batch
            ∧ zip x y = mjoin (zip_with (λ c t, pair c <$> t) batch targets).
Proof.
  destruct (get_batches_pairs [0; 1; 2; 3; 4; 5; 6; 7; 8; 9] 4 5 (const_tape 4) 0%nat)
    as [Hpairs Hret].
  destruct Hret as (batches & Hrun & Hlen); [lia|by vm_compute|].
  exists batches. split_and!; [exact Hrun|exact Hlen|].
  by apply (Hpairs batches 8%nat).
Defined.


(** ** Dictionaries and counters *)

Section DictFacts.
Context {K V : Type} `{EqDecision K}.
Implicit Types d : list (K * V).

Lemma dict_get_set d k v k' :
  dict_get (dict_set d k v) k' = if decide (k = k') then Some v else dict_get d k'.
Proof.
  induction d as [|[k0 v0] d IH]; simpl.
  - done.
  - destruct (decide (k0 = k)) as [->|]; simpl; repeat case_decide; congruence.
Qed.

Lemma dict_get_None d k : dict_get d k = None ↔ k ∉ dict_keys d.
Proof.
  unfold dict_keys. induction d as [|[k0 v0] d IH]; simpl.
  - split; [intros _; apply not_elem_of_nil|done].
  - rewrite not_elem_of_cons, <-IH. case_decide; intuition congruence.
Qed.

Lemma dict_get_Some d k v :
  NoDup (dict_keys d) → dict_get d k = Some v ↔ (k, v) ∈ d.
Proof.
  unfold dict_keys. induction d as [|[k0 v0] d IH]; simpl.
  - intros _. split; [done|]. by intros ?%elem_of_nil.
  - intros [Hk0 Hd]%NoDup_cons. rewrite elem_of_cons, <-IH by done.
    case_decide as Hk; subst.
    + split; [intros [= ->]; by left|]. intros [[= ->]|Hget]; [done|].
      assert (dict_get d k ≠ None) as Hne by congruence.
      rewrite dict_get_None in Hne. by destruct Hne.
    + intuition congruence.
Qed.

Lemma dict_set_fresh d k v : k ∉ dict_keys d → dict_set d k v = d ++ [(k, v)].
Proof.
  unfold dict_keys. induction d as [|[k0 v0] d IH]; simpl; [done|].
  intros [? ?]%not_elem_of_cons. case_decide; [done|]. by rewrite IH.
Qed.

Lemma dict_keys_set d k v :
  dict_keys (dict_set d k v)
  = if decide (k ∈ dict_keys d) then dict_keys d else dict_keys d ++ [k].
Proof.
  unfold dict_keys. induction d as [|[k0 v0] d IH].
  - by rewrite decide_False by apply not_elem_of_nil.
  - cbn [dict_set]. rewrite fmap_cons. cbn [fst].
    destruct (decide (k0 = k)) as [->|Hne].
    + by rewrite decide_True by left.
    + rewrite fmap_cons, IH. cbn [fst]. destruct (decide (k ∈ d.*1)).
      * by rewrite decide_True by (by right).
      * rewrite decide_False; [done|]. rewrite not_elem_of_cons. by split.
Qed.

(** A comprehension over distinct keys lists its pairs in order. *)
Lemma dict_of_NoDup (items : list (K * V)) :
  NoDup items.*1 → dict_of items = items.
Proof.
  unfold dict_of. change items with ([] ++ items) at 1 3.
  generalize (@nil (K * V)) as acc.
  induction items as [|[k v] items IH]; intros acc Hnd; simpl.
  - by rewrite app_nil_r.
  - rewrite dict_set_fresh.
    + rewrite IH, <-app_assoc; [done|]. by rewrite <-app_assoc.
    + rewrite fmap_app, fmap_cons in Hnd. apply NoDup_app in Hnd as (_ & Hnd & _).
      unfold dict_keys. intros Hin. apply (Hnd k Hin). left.
Qed.
End DictFacts.

Section CounterFacts.
Context {K : Type} `{EqDecision K}.
Implicit Types ws : list K.

Lemma Counter_snoc ws w :
  Counter (ws ++ [w])
  = dict_set (Counter ws) w (default 0 (dict_get (Counter ws) w) + 1).
Proof. unfold Counter. by rewrite foldl_snoc. Qed.

Lemma occurrences_snoc w ws w' :
  occurrences w (ws ++ [w'])
  = (occurrences w ws + if decide (w = w') then 1 else 0)%nat.
Proof.
  unfold occurrences. rewrite filter_app, length_app. f_equal.
  rewrite filter_cons, filter_nil. by case_decide.
Qed.

Lemma occurrences_pos w ws : w ∈ ws ↔ (0 < occurrences w ws)%nat.
Proof.
  unfold occurrences. split.
  - intros Hin. assert (w ∈ filter (w =.) ws) as Hf by (by apply list_elem_of_filter).
    destruct (filter _ ws); [by apply elem_of_nil in Hf|simpl; lia].
  - intros Hpos. destruct (filter (w =.) ws) as [|x l] eqn:Hf; [simpl in *; lia|].
    assert (x ∈ filter (w =.) ws) as [-> ?]%list_elem_of_filter by (rewrite Hf; left).
    done.
Qed.

Lemma dict_get_Counter ws w :
  dict_get (Counter ws) w
  = if decide (w ∈ ws) then Some (Z.of_nat (occurrences w ws)) else None.
Proof.
  induction ws as [|w' ws IH] using rev_ind.
  - by rewrite decide_False by apply not_elem_of_nil.
  - rewrite Counter_snoc, dict_get_set, occurrences_snoc.
    destruct (decide (w' = w)) as [->|Hne].
    + rewrite decide_True by (apply elem_of_app; right; left).
      rewrite IH, (decide_True (P := w = w)) by done. f_equal.
      destruct (decide (w ∈ ws)) as [|Hnin]; simpl; [lia|].
      rewrite occurrences_pos in Hnin. lia.
    + rewrite IH, (decide_False (P := w = w')) by done.
      rewrite Nat.add_0_r. apply decide_ext.
      rewrite elem_of_app, list_elem_of_singleton. intuition congruence.
Qed.

Lemma counter_getitem_Counter ws w :
  counter_getitem (Counter ws) w = Z.of_nat (occurrences w ws).
Proof.
  unfold counter_getitem. rewrite dict_get_Counter.
  destruct (decide (w ∈ ws)) as [|Hnin]; simpl; [done|].
  rewrite occurrences_pos in Hnin. lia.
Qed.

Lemma elem_of_Counter_keys ws w : w ∈ dict_keys (Counter ws) ↔ w ∈ ws.
Proof.
  destruct (decide (w ∈ dict_keys (Counter ws))) as [Hin|Hnin].
  - split; [|done]. intros _.
    destruct (decide (w ∈ ws)) as [|Hws]; [done|].
    assert (dict_get (Counter ws) w = None) as Hget
      by (by rewrite dict_get_Counter, decide_False).
    by apply dict_get_None in Hget.
  - split; [done|]. intros Hws. apply dict_get_None in Hnin.
    by rewrite dict_get_Counter, decide_True in Hnin.
Qed.

Lemma NoDup_Counter_keys ws : NoDup (dict_keys (Counter ws)).
Proof.
  induction ws as [|w ws IH] using rev_ind; [constructor|].
  rewrite Counter_snoc, dict_keys_set. case_decide as Hin; [done|].
  apply NoDup_app. split_and!; [done| |apply NoDup_singleton].
  intros x Hx ->%list_elem_of_singleton. done.
Qed.
End CounterFacts.

(** ** Sorting by decreasing key *)

Section SortFacts.
Context {K : Type} (key : K → Z).
Implicit Types l : list K.

Lemma insert_desc_perm x l : insert_desc key x l ≡ₚ x :: l.
Proof.
  induction l as [|y l IH]; simpl; [done|].
  case_match; [done|]. rewrite IH. apply Permutation_swap.
Qed.

Lemma sorted_reverse_perm l : sorted_reverse key l ≡ₚ l.
Proof.
  unfold sorted_reverse. induction l as [|x l IH]; simpl; [done|].
  by rewrite insert_desc_perm, IH.
Qed.

Lemma insert_desc_sorted x l :
  StronglySorted (λ a b, key b ≤ key a) l →
  StronglySorted (λ a b, key b ≤ key a) (insert_desc key x l).
Proof.
  induction 1 as [|y l Hl IH Hy]; simpl.
  - repeat constructor.
  - destruct (Z.leb_spec (key y) (key x)).
    + constructor; [by constructor|].
      constructor; [done|]. eapply Forall_impl; [exact Hy|]. simpl. lia.
    + constructor; [done|]. rewrite insert_desc_perm.
      constructor; [lia|done].
Qed.

Lemma sorted_reverse_sorted l :
  StronglySorted (λ a b, key b ≤ key a) (sorted_reverse key l).
Proof.
  unfold sorted_reverse. induction l; simpl; [constructor|].
  by apply insert_desc_sorted.
Qed.
End SortFacts.

Lemma StronglySorted_lookup {K} (R : relation K) l (i j : nat) a b :
  StronglySorted R l → l !! i = Some a → l !! j = Some b → (i < j)%nat → R a b.
Proof.
  intros Hs Ha Hb Hij. rewrite <-(take_drop j l) in Hs.
  eapply (StronglySorted_app_1_elem_of R); [exact Hs| |].
  - apply elem_of_take. eauto.
  - apply list_elem_of_lookup. exists 0%nat. by rewrite lookup_drop, Nat.add_0_r.
Qed.

(** ** [enumerate] *)

Section EnumerateFacts.
Context {A : Type}.
Implicit Types l : list A.

Lemma elem_of_enumerate l i a :
  (i, a) ∈ enumerate l ↔ 0 ≤ i ∧ l !! Z.to_nat i = Some a.
Proof.
  unfold enumerate. rewrite elem_of_lookup_imap. split.
  - intros (j & y & [= -> ->] & Hj). by rewrite Nat2Z.id; split; [lia|].
  - intros [Hi Ha]. exists (Z.to_nat i), a. split; [f_equal; lia|done].
Qed.

Lemma enumerate_fst l : (enumerate l).*1 = Z.of_nat <$> seq 0 (length l).
Proof.
  apply list_eq; intros i. unfold enumerate.
  rewrite !list_lookup_fmap, list_lookup_imap.
  destruct (l !! i) eqn:Hi; simpl.
  - apply lookup_lt_Some in Hi. by rewrite lookup_seq_lt.
  - apply lookup_ge_None in Hi. by rewrite lookup_seq_ge.
Qed.

Lemma NoDup_enumerate_fst l : NoDup (enumerate l).*1.
Proof. rewrite enumerate_fst. apply NoDup_fmap_2; [apply _|apply NoDup_seq]. Qed.

Lemma enumerate_flip_fst l : ((λ ia : Z * A, (ia.2, ia.1)) <$> enumerate l).*1 = l.
Proof.
  rewrite <-list_fmap_compose. apply list_eq; intros i. unfold enumerate.
  rewrite list_lookup_fmap, list_lookup_imap. by destruct (l !! i).
Qed.
End EnumerateFacts.

(** ** [create_lookup_tables] *)

Section LookupTableFacts.
Context {K : Type} `{EqDecision K}.
Implicit Types words : list K.

Lemma sorted_vocab_perm words :
  sorted_vocab_of words ≡ₚ dict_keys (Counter words).
Proof. apply sorted_reverse_perm. Qed.

Lemma NoDup_sorted_vocab words : NoDup (sorted_vocab_of words).
Proof. rewrite sorted_vocab_perm. apply NoDup_Counter_keys. Qed.

Lemma elem_of_sorted_vocab words w : w ∈ sorted_vocab_of words ↔ w ∈ words.
Proof. rewrite sorted_vocab_perm. apply elem_of_Counter_keys. Qed.

Lemma length_sorted_vocab words :
  length (sorted_vocab_of words) = length (remove_dups words).
Proof.
  apply Permutation_length, NoDup_Permutation.
  - apply NoDup_sorted_vocab.
  - apply NoDup_remove_dups.
  - intros w. by rewrite elem_of_sorted_vocab, elem_of_remove_dups.
Qed.

Lemma create_lookup_tables_eq words :
  create_lookup_tables words
  = ((λ iw : Z * K, (iw.2, iw.1)) <$> enumerate (sorted_vocab_of words),
     enumerate (sorted_vocab_of words)).
Proof.
  unfold create_lookup_tables. fold (sorted_vocab_of words).
  rewrite (dict_of_NoDup (enumerate _)) by apply NoDup_enumerate_fst.
  unfold dict_items. rewrite dict_of_NoDup; [done|].
  rewrite enumerate_flip_fst. apply NoDup_sorted_vocab.
Qed.

Lemma int_to_vocab_lookup words i w :
  dict_get (create_lookup_tables words).2 i = Some w
  ↔ 0 ≤ i ∧ sorted_vocab_of words !! Z.to_nat i = Some w.
Proof.
  rewrite create_lookup_tables_eq. simpl.
  rewrite dict_get_Some by apply NoDup_enumerate_fst.
  apply elem_of_enumerate.
Qed.

Lemma vocab_to_int_lookup words w i :
  dict_get (create_lookup_tables words).1 w = Some i
  ↔ 0 ≤ i ∧ sorted_vocab_of words !! Z.to_nat i = Some w.
Proof.
  rewrite create_lookup_tables_eq. simpl.
  rewrite dict_get_Some
    by (unfold dict_keys; rewrite enumerate_flip_fst; apply NoDup_sorted_vocab).
  rewrite list_elem_of_fmap. split.
  - intros ([i' w'] & [= -> ->] & Hin). by apply elem_of_enumerate.
  - intros Hin. exists (i, w). split; [done|]. by apply elem_of_enumerate.
Qed.
End LookupTableFacts.

Lemma dict_getitem_Ok {K V} `{EqDecision K} (d : list (K * V)) k v :
  dict_getitem d k = Ok v ↔ dict_get d k = Some v.
Proof. unfold dict_getitem. destruct (dict_get d k); split; congruence. Qed.

(** C4: the two tables of [create_lookup_tables] are inverse of each
    other: every word of the input has an id, which [int_to_vocab] maps
    back to the word; every id of [int_to_vocab] holds a word that
    [vocab_to_int] maps back to the id; and the ids are 0, 1, ..., up to
    the number of distinct words, excluded. *)
Theorem create_lookup_tables_inverse {K} `{EqDecision K} (words : list K) :
  let vocab_to_int := (create_lookup_tables words).1 in
  let int_to_vocab := (create_lookup_tables words).2 in
  let distinct := length (remove_dups words) in
  (∀ w, w ∈ words →
     ∃ i, dict_getitem vocab_to_int w = Ok i ∧ dict_getitem int_to_vocab i = Ok w)
  ∧ (∀ i w, dict_getitem int_to_vocab i = Ok w →
       w ∈ words ∧ dict_getitem vocab_to_int w = Ok i)
  ∧ (∀ w i, dict_getitem vocab_to_int w = Ok i →
       w ∈ words ∧ dict_getitem int_to_vocab i = Ok w)
  ∧ dict_keys int_to_vocab = Z.of_nat <$> seq 0 distinct
  ∧ dict_keys vocab_to_int ≡ₚ remove_dups words.
Proof.
  intros v2i i2v distinct. subst v2i i2v distinct. split_and!.
  - intros w Hw. apply elem_of_sorted_vocab in Hw as [j Hj]%list_elem_of_lookup.
    exists (Z.of_nat j).
    rewrite !dict_getitem_Ok, vocab_to_int_lookup, int_to_vocab_lookup, Nat2Z.id.
    split; (split; [lia|done]).
  - intros i w. rewrite !dict_getitem_Ok, vocab_to_int_lookup, int_to_vocab_lookup.
    intros [Hi Hw]. split; [|done].
    apply elem_of_sorted_vocab, list_elem_of_lookup. eauto.
  - intros w i. rewrite !dict_getitem_Ok, vocab_to_int_lookup, int_to_vocab_lookup.
    intros [Hi Hw]. split; [|done].
    apply elem_of_sorted_vocab, list_elem_of_lookup. eauto.
  - rewrite create_lookup_tables_eq. simpl. unfold dict_keys.
    by rewrite enumerate_fst, length_sorted_vocab.
  - rewrite create_lookup_tables_eq. simpl. unfold dict_keys.
    rewrite enumerate_flip_fst. apply NoDup_Permutation.
    + apply NoDup_sorted_vocab.
    + apply NoDup_remove_dups.
    + intros w. by rewrite elem_of_sorted_vocab, elem_of_remove_dups.
Qed.

(** C5: a word with a smaller id occurs at least as often as a word with
    a larger id; in particular a word that occurs more often than every
    other word has id 0, and the word of id 0 occurs at least as often as
    every word. *)
Theorem create_lookup_tables_frequency {K} `{EqDecision K} (words : list K) :
  let vocab_to_int := (create_lookup_tables words).1 in
  (∀ w1 w2 i1 i2,
     w1 ∈ words → w2 ∈ words → w1 ≠ w2 →
     dict_getitem vocab_to_int w1 = Ok i1 →
     dict_getitem vocab_to_int w2 = Ok i2 →
     i1 < i2 →
     (occurrences w2 words ≤ occurrences w1 words)%nat)
  ∧ (∀ w,
       w ∈ words →
       (∀ w', w' ∈ words → w' ≠ w → (occurrences w' words < occurrences w words)%nat) →
       dict_getitem vocab_to_int w = Ok 0)
  ∧ (∀ w0 w,
       dict_getitem vocab_to_int w0 = Ok 0 → w ∈ words →
       (occurrences w words ≤ occurrences w0 words)%nat).
Proof.
  intros v2i. subst v2i.
  assert (∀ w1 w2 i1 i2,
     dict_getitem (create_lookup_tables words).1 w1 = Ok i1 →
     dict_getitem (create_lookup_tables words).1 w2 = Ok i2 →
     i1 < i2 →
     (occurrences w2 words ≤ occurrences w1 words)%nat) as Hmono.
  { intros w1 w2 i1 i2.
    rewrite !dict_getitem_Ok, !vocab_to_int_lookup. intros [? H1] [? H2] Hlt.
    pose proof (StronglySorted_lookup _ _ _ _ _ _
                  (sorted_reverse_sorted (counter_getitem (Counter words)) _)
                  H1 H2 ltac:(lia)) as Hle.
    simpl in Hle. rewrite !counter_getitem_Counter in Hle. lia. }
  split_and!; [by eauto| |].
  2:{ intros w0 w H0 Hw.
      apply elem_of_sorted_vocab, list_elem_of_lookup in Hw as [j Hj].
      destruct j as [|j].
      - apply dict_getitem_Ok, vocab_to_int_lookup in H0 as [_ H0].
        change (Z.to_nat 0) with 0%nat in H0. by simplify_eq.
      - apply (Hmono w0 w 0 (Z.of_nat (S j))); [done| |lia].
        rewrite dict_getitem_Ok, vocab_to_int_lookup, Nat2Z.id. split; [lia|done]. }
  intros w Hw Hmax.
  apply elem_of_sorted_vocab in Hw as Hsv.
  apply list_elem_of_lookup in Hsv as [j Hj].
  destruct j as [|j].
  { rewrite dict_getitem_Ok, vocab_to_int_lookup. by split. }
  destruct (sorted_vocab_of words !! 0%nat) as [w0|] eqn:H0.
  2:{ apply lookup_ge_None in H0. apply lookup_lt_Some in Hj. lia. }
  assert (w0 ≠ w) as Hne.
  { intros ->. pose proof (NoDup_sorted_vocab words) as Hnd.
    by pose proof (NoDup_lookup _ _ _ _ Hnd H0 Hj). }
  assert (w0 ∈ words) as Hw0
    by (apply elem_of_sorted_vocab, list_elem_of_lookup; eauto).
  specialize (Hmax w0 Hw0 Hne).
  specialize (Hmono w0 w 0 (Z.of_nat (S j))).
  rewrite !dict_getitem_Ok, !vocab_to_int_lookup, Nat2Z.id in Hmono.
  specialize (Hmono ltac:(done) ltac:(split; [lia|done]) ltac:(lia)). lia.
Qed.

Lemma create_lookup_tables_frequency_witness :
  dict_getitem (create_lookup_tables (lit <$> ["b"; "a"; "c"; "a"; "c"; "d"; "c"])).1
    (lit "c") = Ok 0.
Proof.
  apply (create_lookup_tables_frequency (lit <$> ["b"; "a"; "c"; "a"; "c"; "d"; "c"])).
  - apply list_elem_of_fmap_2. do 2 right. left.
  - intros w' Hw' Hne. vm_compute in Hw'.
    repeat (apply elem_of_cons in Hw' as [->|Hw']; [try done; vm_compute; lia|]).
    by apply elem_of_nil in Hw'.
Defined.

(** ** [preprocess] *)

Lemma occurrences_filter {K} `{EqDecision K} (P : K → Prop) `{∀ x, Decision (P x)}
    (w : K) (l : list K) :
  occurrences w (filter P l) = if decide (P w) then occurrences w l else 0%nat.
Proof.
  unfold occurrences. rewrite list_filter_filter. case_decide as HP.
  - f_equal. apply list_filter_iff. intros x. split; [by intros [? ?]|by intros ->].
  - replace (filter (λ x, w = x ∧ P x) l) with (@nil K); [done|].
    symmetry. induction l as [|x l IH]; [done|].
    rewrite filter_cons_False; [done|]. by intros [-> ?].
Qed.

Lemma preprocess_eq text :
  preprocess text
  = filter (λ w, (5 < occurrences w (tokenize text))%nat) (tokenize text).
Proof.
  unfold preprocess, tokenize. apply list_filter_iff. intros w.
  rewrite counter_getitem_Counter. lia.
Qed.

(** C6: [preprocess] returns the tokenized text without the tokens that
    occur five times or fewer: every returned token occurs more than five
    times, and a token that occurs more than five times stays at each of
    its positions, in the order of the text. *)
Theorem preprocess_keeps_frequent (text : str) :
  let words := tokenize text in
  preprocess text = filter (λ w, (5 < occurrences w words)%nat) words
  ∧ preprocess text `sublist_of` words
  ∧ (∀ w, w ∈ preprocess text → w ∈ words ∧ (5 < occurrences w words)%nat)
  ∧ (∀ w, (5 < occurrences w words)%nat →
          occurrences w (preprocess text) = occurrences w words)
  ∧ (∀ w, (occurrences w words ≤ 5)%nat → w ∉ preprocess text).
Proof.
  intros words. subst words. rewrite preprocess_eq. split_and!.
  - done.
  - apply sublist_filter.
  - intros w [? ?]%list_elem_of_filter. done.
  - intros w Hw. rewrite occurrences_filter. by rewrite decide_True.
  - intros w Hw [? ?]%list_elem_of_filter. lia.
Qed.

(** ** The replacements of [preprocess] *)

Lemma replace_char_cons c new x (s : str) :
  replace (x :: s) [c] new
  = (if decide (c = x) then new else [x]) ++ replace s [c] new.
Proof. unfold replace. simpl. by case_decide. Qed.

Lemma replace_char_nil c new : replace [] [c] new = [].
Proof. done. Qed.

Lemma replace_char_app c new (a b : str) :
  replace (a ++ b) [c] new = replace a [c] new ++ replace b [c] new.
Proof.
  induction a as [|x a IH]; [done|].
  rewrite <-app_comm_cons, !replace_char_cons, IH. by rewrite app_assoc.
Qed.

Lemma replace_marks_before_app (a b : str) :
  replace_marks_before (a ++ b) = replace_marks_before a ++ replace_marks_before b.
Proof. unfold replace_marks_before. eval_lits. by rewrite !replace_char_app. Qed.

Lemma replace_marks_after_app (a b : str) :
  replace_marks_after (a ++ b) = replace_marks_after a ++ replace_marks_after b.
Proof. unfold replace_marks_after. eval_lits. by rewrite !replace_char_app. Qed.

Lemma replace_punctuation_eq (text : str) :
  replace_punctuation text
  = replace_marks_after
      (replace (replace_marks_before text) (lit "--") (lit " <HYPHENS> ")).
Proof. done. Qed.

(** What the replacements of one character do to a character that is
    not a hyphen: no hyphen comes out, and in the end the character has
    become its sentinel, if it has one. *)
Lemma replace_marks_char x :
  x ≠ hyphen →
  Forall (λ c, c ≠ hyphen) (replace_marks_before [x])
  ∧ replace_marks_before [x] ≠ []
  ∧ replace_marks_after (replace_marks_before [x]) = default [x] (sentinel x).
Proof.
  destruct x as [[] [] [] [] [] [] [] []]; intros Hne;
    try (by destruct Hne);
    (split_and!;
     [by apply (bool_decide_unpack _); vm_compute | by vm_compute | by vm_compute]).
Qed.

Lemma replace_hyphens_skip (t rest : str) new :
  Forall (λ c, c ≠ hyphen) t →
  replace_from 0 (t ++ rest) [hyphen; hyphen] new
  = t ++ replace_from 0 rest [hyphen; hyphen] new.
Proof.
  induction 1 as [|c t Hc _ IH]; [done|].
  simpl. rewrite decide_False by done. by rewrite IH.
Qed.

Lemma replace_hyphens_hyphen (rest : str) new :
  replace_from 0 (hyphen :: rest) [hyphen; hyphen] new
  = match rest with
    | c :: rest' =>
        if decide (c = hyphen)
        then new ++ replace_from 0 rest' [hyphen; hyphen] new
        else hyphen :: replace_from 0 rest [hyphen; hyphen] new
    | [] => [hyphen]
    end.
Proof.
  destruct rest as [|c rest']; [done|].
  cbn [replace_from startswith length Nat.sub].
  rewrite decide_True by done.
  destruct (decide (hyphen = c)) as [<-|Hne].
  - by rewrite decide_True.
  - by rewrite decide_False.
Qed.

(** The equations of [mark_punctuation]. *)
Lemma mark_sentinel c t (s : str) :
  sentinel c = Some t → mark_punctuation (c :: s) = t ++ mark_punctuation s.
Proof. intros Hc. cbn [mark_punctuation]. by rewrite Hc. Qed.

Lemma mark_plain c (s : str) :
  sentinel c = None → c ≠ hyphen →
  mark_punctuation (c :: s) = c :: mark_punctuation s.
Proof. intros Hc Hne. cbn [mark_punctuation]. by rewrite Hc, decide_False. Qed.

Lemma mark_hyphens (s : str) :
  mark_punctuation (hyphen :: hyphen :: s) = lit " <HYPHENS> " ++ mark_punctuation s.
Proof. done. Qed.

Lemma mark_hyphen c (s : str) :
  c ≠ hyphen →
  mark_punctuation (hyphen :: c :: s) = hyphen :: mark_punctuation (c :: s).
Proof.
  intros Hne.
  change (mark_punctuation (hyphen :: c :: s))
    with (if decide (c = hyphen)
          then lit " <HYPHENS> " ++ mark_punctuation s
          else hyphen :: mark_punctuation (c :: s)).
  by rewrite decide_False.
Qed.

Lemma replace_punctuation_mark_le (n : nat) (s : str) :
  (length s ≤ n)%nat → replace_punctuation s = mark_punctuation s.
Proof.
  rewrite replace_punctuation_eq. change (lit "--") with [hyphen; hyphen].
  unfold replace.
  revert s. induction n as [|n IH]; intros [|x s] Hlen; simpl in Hlen; try lia; try done.
  change (x :: s) with ([x] ++ s) at 1. rewrite replace_marks_before_app.
  destruct (decide (x = hyphen)) as [->|Hx].
  - change (replace_marks_before [hyphen]) with [hyphen].
    cbn [app]. rewrite replace_hyphens_hyphen.
    destruct s as [|y s]; [done|].
    change (y :: s) with ([y] ++ s) at 1 2. rewrite replace_marks_before_app.
    destruct (decide (y = hyphen)) as [->|Hy].
    + change (replace_marks_before [hyphen]) with [hyphen]. cbn [app].
      rewrite decide_True, replace_marks_after_app, IH, mark_hyphens by (simpl in *; lia || done).
      done.
    + destruct (replace_marks_char y Hy) as (Hnh & Hne & _).
      destruct (replace_marks_before [y]) as [|h t] eqn:Hy'; [done|].
      apply Forall_cons in Hnh as [Hh _].
      cbn [app]. rewrite decide_False by done.
      change (h :: t ++ replace_marks_before s)
        with ((h :: t) ++ replace_marks_before s).
      rewrite <-Hy', <-replace_marks_before_app. cbn [app].
      change (hyphen :: ?r) with ([hyphen] ++ r) at 1.
      rewrite replace_marks_after_app, IH, mark_hyphen by (simpl in *; lia || done).
      done.
  - destruct (replace_marks_char x Hx) as (Hnh & _ & Hafter).
    rewrite replace_hyphens_skip, replace_marks_after_app, Hafter, IH by (done || lia).
    destruct (sentinel x) as [t|] eqn:Hs.
    + by rewrite (mark_sentinel x t).
    + by rewrite mark_plain.
Qed.

(** The replacements of [preprocess] turn every punctuation mark into its
    sentinel. *)
Lemma replace_punctuation_mark (s : str) :
  replace_punctuation s = mark_punctuation s.
Proof. by apply (replace_punctuation_mark_le (length s)). Qed.

(** Induction along the cases of [mark_punctuation]. *)
Lemma mark_punctuation_cases (P : str → str → Prop) :
  P [] [] →
  (∀ c t s, sentinel c = Some t → P s (mark_punctuation s) →
            P (c :: s) (t ++ mark_punctuation s)) →
  (∀ c s, sentinel c = None → c ≠ hyphen → P s (mark_punctuation s) →
          P (c :: s) (c :: mark_punctuation s)) →
  (∀ s, P s (mark_punctuation s) →
        P (hyphen :: hyphen :: s) (lit " <HYPHENS> " ++ mark_punctuation s)) →
  (∀ c s, c ≠ hyphen → P (c :: s) (mark_punctuation (c :: s)) →
          P (hyphen :: c :: s) (hyphen :: mark_punctuation (c :: s))) →
  P [hyphen] [hyphen] →
  ∀ s, P s (mark_punctuation s).
Proof.
  intros Hnil Hsent Hplain Hhh Hh Hend s.
  assert (∀ n (s : str), (length s ≤ n)%nat → P s (mark_punctuation s)) as Hall;
    [|by apply (Hall (length s))].
  clear s. induction n as [|n IH]; intros [|x s] Hlen; simpl in Hlen; try lia; try done.
  destruct (decide (x = hyphen)) as [->|Hx].
  - destruct s as [|y s]; [done|].
    destruct (decide (y = hyphen)) as [->|Hy].
    + rewrite mark_hyphens. apply Hhh, IH. simpl in Hlen. lia.
    + rewrite mark_hyphen by done. apply Hh; [done|]. apply IH. lia.
  - destruct (sentinel x) as [t|] eqn:Hs.
    + rewrite (mark_sentinel x t) by done. apply Hsent; [done|]. apply IH. lia.
    + rewrite mark_plain by done. apply Hplain; [done..|]. apply IH. lia.
Qed.

Lemma dict_get_elem_of {K V} `{EqDecision K} (d : list (K * V)) k v :
  dict_get d k = Some v → (k, v) ∈ d.
Proof.
  induction d as [|[k0 v0] d IH]; simpl; [done|].
  case_decide; [intros [= ->]; subst; left|right; auto].
Qed.

(** What holds of every sentinel, by inspection of the table. *)
Lemma sentinel_table c t :
  sentinel c = Some t →
  Forall (λ c, c ∉ punctuation) t
  ∧ (∀ b rest, double_hyphen b (t ++ rest) = double_hyphen false rest)
  ∧ (∀ rest, head (t ++ rest) ≠ Some hyphen).
Proof.
  intros Hin%dict_get_elem_of.
  assert (Forall (λ ct : ascii * str,
            Forall (λ c, c ∉ punctuation) ct.2
            ∧ (∀ b rest, double_hyphen b (ct.2 ++ rest) = double_hyphen false rest)
            ∧ (∀ rest, head (ct.2 ++ rest) ≠ Some hyphen)) sentinels) as Hall.
  { repeat apply Forall_cons_2; [..|apply Forall_nil_2];
      (split_and!; [by apply (bool_decide_unpack _); vm_compute|done|done]). }
  rewrite Forall_forall in Hall. apply (Hall (c, t) Hin).
Qed.

Lemma sentinel_None c : sentinel c = None → c ∉ punctuation.
Proof. apply dict_get_None. Qed.

Lemma mark_no_punctuation (s : str) :
  Forall (λ c, c ∉ punctuation) (mark_punctuation s).
Proof.
  apply (mark_punctuation_cases (λ _ out, Forall (λ c, c ∉ punctuation) out)).
  - constructor.
  - intros c t s' Hc IH. apply Forall_app. split; [|done].
    by apply (sentinel_table c t).
  - intros c s' Hc _ IH. constructor; [by apply sentinel_None|done].
  - intros s' IH. apply Forall_app. split; [|done].
    by apply (bool_decide_unpack _); vm_compute.
  - intros c s' _ IH. constructor; [|done]. by apply (bool_decide_unpack _); vm_compute.
  - by apply (bool_decide_unpack _); vm_compute.
Qed.

Lemma double_hyphen_after_hyphen (out : str) :
  head out ≠ Some hyphen → double_hyphen true out = double_hyphen false out.
Proof.
  destruct out as [|c out]; [done|]. simpl. intros Hne.
  by rewrite !decide_False by congruence.
Qed.

Lemma mark_no_double_hyphen (s : str) :
  double_hyphen false (mark_punctuation s) = false.
Proof.
  apply (mark_punctuation_cases (λ s out,
    double_hyphen false out = false
    ∧ (head s ≠ Some hyphen → head out ≠ Some hyphen))).
  - done.
  - intros c t s' Hc [IH _]. destruct (sentinel_table c t Hc) as (_ & Hdh & Hhd).
    by rewrite Hdh.
  - intros c s' _ Hne [IH _]. split; [|simpl; congruence].
    simpl. by rewrite decide_False.
  - intros s' [IH _]. done.
  - intros c s' Hne [IH Hhd]. split; [|done].
    cbn [double_hyphen]. rewrite decide_True by done.
    rewrite double_hyphen_after_hyphen; [done|]. apply Hhd. simpl. congruence.
  - done.
Qed.

Lemma double_hyphen_contains (s : str) b :
  contains [hyphen; hyphen] s → double_hyphen b s = true.
Proof.
  intros (pre & post & ->). revert b.
  induction pre as [|c pre IH]; intros b; simpl.
  - by destruct b.
  - case_decide; rewrite IH; by destruct b.
Qed.

(** ** [split] *)

Lemma split_from_contains (cur s t : str) :
  t ∈ split_from cur s → contains t (cur ++ s).
Proof.
  revert cur. induction s as [|c s IH]; intros cur; simpl.
  - destruct cur as [|c0 cur]; [by intros ?%elem_of_nil|].
    intros ->%list_elem_of_singleton. exists [], []. by rewrite !app_nil_r.
  - destruct (isspace c).
    + destruct cur as [|c0 cur].
      * intros (pre & post & Heq)%IH. exists (c :: pre), post. simpl in *. by f_equal.
      * intros [->|(pre & post & Heq)%IH]%elem_of_cons.
        -- by exists [], (c :: s).
        -- exists ((c0 :: cur) ++ c :: pre), post. simpl in Heq. rewrite Heq.
           by rewrite <-!app_assoc.
    + intros (pre & post & Heq)%IH. exists pre, post. rewrite <-Heq.
      by rewrite <-app_assoc.
Qed.

Lemma contains_elem_of (t s : str) c : contains t s → c ∈ t → c ∈ s.
Proof. intros (pre & post & ->) Hc. rewrite !elem_of_app. auto. Qed.

Lemma contains_trans (a b c : str) : contains a b → contains b c → contains a c.
Proof.
  intros (p1 & q1 & ->) (p2 & q2 & ->). exists (p2 ++ p1), (q1 ++ q2).
  by rewrite <-!app_assoc.
Qed.

Lemma split_from_app_space (cur x y : str) c :
  isspace c = true →
  split_from cur (x ++ c :: y) = split_from cur x ++ split y.
Proof.
  intros Hc. revert cur. induction x as [|d x IH]; intros cur; simpl.
  - rewrite Hc. by destruct cur.
  - destruct (isspace d); [|by apply IH].
    destruct cur; by rewrite IH.
Qed.

Lemma split_word (w : str) :
  w ≠ [] → Forall (λ c, isspace c = false) w → split w = [w].
Proof.
  intros Hne Hw. unfold split.
  assert (∀ cur, split_from cur w = if decide (cur ++ w = []) then [] else [cur ++ w])
    as Hgen.
  { clear Hne. induction Hw as [|c w Hc _ IH]; intros cur; simpl.
    - rewrite app_nil_r. by destruct cur.
    - rewrite Hc, IH, <-app_assoc. simpl.
      rewrite !decide_False; [done|by destruct cur..]. }
  rewrite Hgen. by rewrite decide_False.
Qed.

Lemma mark_app_not_hyphen (a b : str) c :
  c ≠ hyphen →
  mark_punctuation (a ++ c :: b) = mark_punctuation a ++ mark_punctuation (c :: b).
Proof.
  intros Hc.
  apply (mark_punctuation_cases (λ a out,
           mark_punctuation (a ++ c :: b) = out ++ mark_punctuation (c :: b))).
  - done.
  - intros c0 t s Hs IH. rewrite <-app_comm_cons, (mark_sentinel c0 t) by done.
    by rewrite IH, app_assoc.
  - intros c0 s Hs Hne IH. by rewrite <-app_comm_cons, mark_plain, IH by done.
  - intros s IH. rewrite <-!app_comm_cons, mark_hyphens. by rewrite IH, app_assoc.
  - intros c0 s Hne IH. rewrite <-!app_comm_cons, mark_hyphen by done.
    rewrite app_comm_cons, IH. done.
  - simpl ([hyphen] ++ _). by rewrite mark_hyphen.
Qed.

(** What holds of every punctuation character and its sentinel, by
    inspection of the table. *)
Lemma sentinel_shape c t :
  sentinel c = Some t →
  lower_char c = c ∧ c ≠ hyphen
  ∧ t = " "%char :: sentinel_token t ++ [" "%char]
  ∧ sentinel_token t ≠ []
  ∧ Forall (λ c, isspace c = false) (sentinel_token t).
Proof.
  intros Hin%dict_get_elem_of.
  assert (Forall (λ ct : ascii * str,
            lower_char ct.1 = ct.1 ∧ ct.1 ≠ hyphen
            ∧ ct.2 = " "%char :: sentinel_token ct.2 ++ [" "%char]
            ∧ sentinel_token ct.2 ≠ []
            ∧ Forall (λ c, isspace c = false) (sentinel_token ct.2)) sentinels)
    as Hall.
  { repeat apply Forall_cons_2; [..|apply Forall_nil_2];
      (split_and!; [done|done|done|done|by apply (bool_decide_unpack _); vm_compute]). }
  rewrite Forall_forall in Hall. apply (Hall (c, t) Hin).
Qed.

(** A token between two spaces is a token of the split. *)
Lemma split_token_between (l1 l2 tok : str) :
  tok ≠ [] → Forall (λ c, isspace c = false) tok →
  split (l1 ++ " "%char :: tok ++ " "%char :: l2)
  = split l1 ++ tok :: split l2.
Proof.
  intros Hne Htok. unfold split. rewrite split_from_app_space by done.
  f_equal. change (split_from [] ?x) with (split x).
  unfold split at 1. rewrite split_from_app_space by done.
  fold (split tok). by rewrite split_word.
Qed.

(** The marked text at a punctuation character: the tokens before it,
    the token of its sentinel, the tokens after it. *)
Lemma split_mark_at_sentinel (a b : str) c t :
  sentinel c = Some t →
  split (mark_punctuation (a ++ c :: b))
  = split (mark_punctuation a) ++ sentinel_token t :: split (mark_punctuation b).
Proof.
  intros Hc. destruct (sentinel_shape c t Hc) as (_ & Hne & Ht & Htok & Hsp).
  rewrite mark_app_not_hyphen, (mark_sentinel c t) by done.
  rewrite Ht at 1. cbn [app]. rewrite <-app_assoc. cbn [app].
  by apply split_token_between.
Qed.

Lemma occurrences_app {K} `{EqDecision K} (w : K) (l1 l2 : list K) :
  occurrences w (l1 ++ l2) = (occurrences w l1 + occurrences w l2)%nat.
Proof. unfold occurrences. by rewrite filter_app, length_app. Qed.

Lemma occurrences_cons {K} `{EqDecision K} (w x : K) (l : list K) :
  occurrences w (x :: l)
  = ((if decide (w = x) then 1 else 0) + occurrences w l)%nat.
Proof. unfold occurrences. rewrite filter_cons. by case_decide. Qed.

Lemma occurrences_fmap_le {K} `{EqDecision K} (f : K → K) w (l : list K) :
  f w = w → (occurrences w l ≤ occurrences w (f <$> l))%nat.
Proof.
  intros Hf. induction l as [|x l IH]; [done|].
  rewrite fmap_cons, !occurrences_cons.
  repeat case_decide; subst; try lia. congruence.
Qed.

(** Each occurrence of a punctuation character gives one token of its
    sentinel. *)
Lemma occurrences_sentinel c t (s : str) :
  sentinel c = Some t →
  (occurrences c s
   ≤ occurrences (sentinel_token t) (split (mark_punctuation s)))%nat.
Proof.
  intros Hc.
  assert (∀ n (s : str), (length s ≤ n)%nat →
            (occurrences c s
             ≤ occurrences (sentinel_token t) (split (mark_punctuation s)))%nat)
    as Hall; [|by apply (Hall (length s))].
  clear s. induction n as [|n IH]; intros s Hlen.
  - destruct s; [done|simpl in Hlen; lia].
  - destruct (decide (c ∈ s)) as [Hin|Hnin].
    + apply list_elem_of_split in Hin as (a & b & ->).
      rewrite length_app in Hlen. simpl in Hlen.
      rewrite (split_mark_at_sentinel a b c t Hc).
      rewrite !occurrences_app, !occurrences_cons, !decide_True by done.
      pose proof (IH a ltac:(lia)). pose proof (IH b ltac:(lia)). lia.
    + rewrite occurrences_pos in Hnin. lia.
Qed.

(** A double hyphen gives a token [<HYPHENS>]. *)
Lemma mark_double_hyphen (s : str) :
  double_hyphen false s = true →
  ∃ l1 l2, mark_punctuation s = l1 ++ lit " <HYPHENS> " ++ l2.
Proof.
  apply (mark_punctuation_cases (λ s out,
           double_hyphen false s = true →
           ∃ l1 l2, out = l1 ++ lit " <HYPHENS> " ++ l2)).
  - done.
  - intros c t s' Hc IH. destruct (sentinel_shape c t Hc) as (_ & Hne & _).
    cbn [double_hyphen]. rewrite decide_False by done.
    intros (l1 & l2 & ->)%IH. exists (t ++ l1), l2. by rewrite app_assoc.
  - intros c s' _ Hne IH. cbn [double_hyphen]. rewrite decide_False by done.
    intros (l1 & l2 & ->)%IH. by exists (c :: l1), l2.
  - intros s' _ _. by exists [], (mark_punctuation s').
  - intros c s' Hne IH. cbn [double_hyphen].
    rewrite decide_True, decide_False by done. cbn [orb].
    intros Hdh. destruct IH as (l1 & l2 & ->).
    { cbn [double_hyphen]. by rewrite decide_False. }
    by exists (hyphen :: l1), l2.
  - cbn [double_hyphen]. by rewrite decide_True.
Qed.

Lemma hyphens_token (s : str) :
  contains (lit "--") s → lit "<HYPHENS>" ∈ split (mark_punctuation s).
Proof.
  intros Hc. apply (double_hyphen_contains _ false) in Hc.
  apply mark_double_hyphen in Hc as (l1 & l2 & ->).
  change (lit " <HYPHENS> ") with (" "%char :: lit "<HYPHENS>" ++ [" "%char]).
  cbn [app]. rewrite <-app_assoc. cbn [app].
  rewrite split_token_between.
  - apply elem_of_app. right. left.
  - done.
  - by apply (bool_decide_unpack _); vm_compute.
Qed.

Lemma contains_lower_hyphens (text : str) :
  contains (lit "--") text → contains (lit "--") (lower text).
Proof.
  intros (pre & post & ->). exists (lower pre), (lower post).
  unfold lower. by rewrite !fmap_app.
Qed.

(** C7: [preprocess] replaces every occurrence of the nine punctuation
    characters and of the double hyphen by its sentinel token between
    spaces, before it splits.  The text it splits is the lowercased text
    with each mark replaced in one pass, and what it returns are the
    tokens of that text that occur more than five times.  Each occurrence
    of a punctuation character gives one token of its sentinel, so a
    character that occurs more than five times shows as its sentinel in
    the result; a double hyphen gives the token [<HYPHENS>].  So no token
    that [preprocess] returns, and no token of the tokenized text, holds
    one of the nine characters or a double hyphen. *)
Theorem preprocess_replaces_punctuation (text : str) :
  let marked := mark_punctuation (lower text) in
  replace_punctuation (lower text) = marked
  ∧ tokenize text = split marked
  ∧ preprocess text
    = filter (λ w, (5 < occurrences w (split marked))%nat) (split marked)
  ∧ (λ ct : ascii * str, (ct.1, sentinel_token ct.2)) <$> sentinels
    = [("."%char, lit "<PERIOD>"); (","%char, lit "<COMMA>");
       (quotation_mark, lit "<QUOTATION_MARK>"); (";"%char, lit "<SEMICOLON>");
       ("!"%char, lit "<EXCLAMATION_MARK>"); ("?"%char, lit "<QUESTION_MARK>");
       ("("%char, lit "<LEFT_PAREN>"); (")"%char, lit "<RIGHT_PAREN>");
       (":"%char, lit "<COLON>")]
  ∧ (∀ c t, sentinel c = Some t →
       (occurrences c text ≤ occurrences (sentinel_token t) (split marked))%nat
       ∧ ((5 < occurrences c text)%nat → sentinel_token t ∈ preprocess text))
  ∧ (contains (lit "--") text → lit "<HYPHENS>" ∈ split marked)
  ∧ (∀ t, t ∈ tokenize text →
       (∀ c, c ∈ punctuation → c ∉ t) ∧ ¬ contains (lit "--") t)
  ∧ (∀ t, t ∈ preprocess text →
       (∀ c, c ∈ punctuation → c ∉ t) ∧ ¬ contains (lit "--") t).
Proof.
  intros marked.
  assert (tokenize text = split marked) as Htokenize
    by (unfold tokenize; by rewrite replace_punctuation_mark).
  assert (∀ t, t ∈ tokenize text →
       (∀ c, c ∈ punctuation → c ∉ t) ∧ ¬ contains (lit "--") t) as Htok.
  { intros t Ht. unfold tokenize, split in Ht.
    apply split_from_contains in Ht. simpl in Ht.
    rewrite replace_punctuation_mark in Ht. split.
    - intros c Hc Hct. pose proof (contains_elem_of _ _ _ Ht Hct) as Hin.
      pose proof (mark_no_punctuation (lower text)) as Hall.
      rewrite Forall_forall in Hall. by apply (Hall c Hin).
    - intros Hhh. pose proof (contains_trans _ _ _ Hhh Ht) as Hc.
      apply (double_hyphen_contains _ false) in Hc.
      by rewrite mark_no_double_hyphen in Hc. }
  assert (∀ c t, sentinel c = Some t →
            (occurrences c text
             ≤ occurrences (sentinel_token t) (split marked))%nat) as Hocc.
  { intros c t Hc. destruct (sentinel_shape c t Hc) as (Hlow & _).
    pose proof (occurrences_fmap_le lower_char c text Hlow).
    pose proof (occurrences_sentinel c t (lower text) Hc).
    unfold marked, lower in *. lia. }
  split_and!.
  - apply replace_punctuation_mark.
  - done.
  - by rewrite preprocess_eq, Htokenize.
  - by vm_compute.
  - intros c t Hc. split; [by apply Hocc|]. intros Hfreq.
    specialize (Hocc c t Hc).
    rewrite preprocess_eq, Htokenize. apply list_elem_of_filter.
    split; [lia|]. apply occurrences_pos. lia.
  - intros Hc. by apply hyphens_token, contains_lower_hyphens.
  - done.
  - intros t Ht. apply Htok. rewrite preprocess_eq in Ht.
    by apply list_elem_of_filter in Ht as [_ ?].
Qed.

(** ** Subsampling *)

Lemma mapM_result_Ok {A B} (f : A → result B) (g : A → B) (l : list A) :
  (∀ a, a ∈ l → f a = Ok (g a)) → mapM f l = Ok (g <$> l).
Proof.
  induction l as [|a l IH]; intros Hf; [done|].
  cbn [mapM]. rewrite (Hf a) by left. cbn [mbind result_bind].
  rewrite IH; [done|]. intros; apply Hf. by right.
Qed.

Lemma mapM_result_Raise {A B} (f : A → result B) (l : list A) e :
  mapM f l = Raise e → ∃ a, a ∈ l ∧ f a = Raise e.
Proof.
  induction l as [|a l IH]; [done|]. cbn [mapM].
  destruct (f a) as [b|e'] eqn:Hfa; cbn [mbind result_bind].
  - destruct (mapM f l) as [bs|e'] eqn:Hl; [done|]. intros [= ->].
    destruct IH as (a' & ? & ?); [done|]. exists a'. split; [by right|done].
  - intros [= ->]. exists a. split; [left|done].
Qed.

Section SelectFacts.
Context {T A : Type}.
Implicit Types (cond : A → Gen T bool) (l : list A).

Lemma select_each_cons cond a l tape k :
  select_each cond (a :: l) tape k
  = match cond a tape k with
    | Ok (keep, k') =>
        match select_each cond l tape k' with
        | Ok (rest, k'') => Ok (if keep then a :: rest else rest, k'')
        | Raise e => Raise e
        end
    | Raise e => Raise e
    end.
Proof.
  cbn [select_each]. rewrite bind_eq.
  destruct (cond a tape k) as [[keep k']|]; [|done].
  rewrite bind_eq. by destruct (select_each cond l tape k') as [[rest k'']|].
Qed.

(** Whatever the condition draws, a comprehension with a condition
    selects a subsequence. *)
Lemma select_each_sublist cond l tape k res k' :
  select_each cond l tape k = Ok (res, k') → res `sublist_of` l.
Proof.
  revert k res k'. induction l as [|a l IH]; intros k res k'.
  - intros [= <- _]. constructor.
  - rewrite select_each_cons.
    destruct (cond a tape k) as [[keep k1]|]; [|done].
    destruct (select_each cond l tape k1) as [[rest k2]|] eqn:Hl; [|done].
    intros [= <- _]. apply IH in Hl.
    destruct keep; [by apply sublist_skip|by apply sublist_cons].
Qed.

Lemma select_each_Ok cond l tape k :
  (∀ a k, a ∈ l → ∃ keep, cond a tape k = Ok (keep, S k)) →
  ∃ res, select_each cond l tape k = Ok (res, (k + length l)%nat).
Proof.
  revert k. induction l as [|a l IH]; intros k Hc.
  - exists []. simpl. by rewrite Nat.add_0_r.
  - destruct (Hc a k) as [keep Hk]; [left|].
    destruct (IH (S k)) as [rest Hrest]; [intros; apply Hc; by right|].
    eexists. rewrite select_each_cons, Hk, Hrest. do 2 f_equal. simpl. lia.
Qed.
End SelectFacts.

Lemma sublist_occurrences {K} `{EqDecision K} (l1 l2 : list K) w :
  l1 `sublist_of` l2 → (occurrences w l1 ≤ occurrences w l2)%nat.
Proof.
  unfold occurrences. induction 1 as [|x l1 l2 _ IH|x l1 l2 _ IH].
  - done.
  - rewrite !filter_cons. case_decide; simpl; lia.
  - rewrite filter_cons. case_decide; simpl; lia.
Qed.

Section DictFmapFacts.
Context {K V : Type} `{EqDecision K}.

Lemma dict_get_fmap_values {V'} (g : K * V → V') (d : list (K * V)) k :
  dict_get ((λ kv, (kv.1, g kv)) <$> d) k
  = (λ v, g (k, v)) <$> dict_get d k.
Proof.
  induction d as [|[k0 v0] d IH]; [done|].
  rewrite fmap_cons. cbn [dict_get fst]. case_decide; [by subst|done].
Qed.

Lemma dict_get_fmap_keys (g : K → V) (ks : list K) k :
  k ∈ ks → dict_get ((λ k, (k, g k)) <$> ks) k = Some (g k).
Proof.
  induction ks as [|k0 ks IH]; [by intros ?%elem_of_nil|].
  rewrite fmap_cons. cbn [dict_get]. case_decide as Hk; [by subst|].
  intros [?|?]%elem_of_cons; [congruence|auto].
Qed.
End DictFmapFacts.

Example train_words_run :
  train_words [0; 1; 0; 2; 0; 1; 0; 3] (alternate 0x1p-10%float 0.5%float) 0%nat
  = Ok ([0; 0; 0; 0], 8%nat).
Proof. vm_compute. reflexivity. Qed.

Section SubsamplingFacts.
Context {F : Type} `{Float F} {K : Type} `{EqDecision K}.
Implicit Types (ws : list K) (tape : nat → F).

Lemma frequency_of_Counter ws :
  frequency_of (Counter ws) (len ws)
  = Ok ((λ wc : K * Z, (wc.1, int_div wc.2 (len ws))) <$> Counter ws).
Proof.
  unfold frequency_of, dict_items.
  rewrite (mapM_result_Ok _ (λ wc : K * Z, (wc.1, int_div wc.2 (len ws)))).
  - cbn [mbind result_bind mret result_ret]. rewrite dict_of_NoDup; [done|].
    rewrite <-list_fmap_compose. apply NoDup_Counter_keys.
  - intros [w c] Hwc. unfold int_truediv.
    assert (w ∈ ws) as Hw.
    { apply elem_of_Counter_keys. unfold dict_keys.
      by apply (list_elem_of_fmap_2 fst) in Hwc. }
    destruct (Z.eqb_spec (len ws) 0) as [Hz|]; [|done].
    destruct ws; [by apply elem_of_nil in Hw|unfold len in Hz; simpl in Hz; lia].
Qed.

Lemma frequency_lookup ws w :
  w ∈ ws →
  dict_getitem ((λ wc : K * Z, (wc.1, int_div wc.2 (len ws))) <$> Counter ws) w
  = Ok (word_frequency ws w).
Proof.
  intros Hw. unfold dict_getitem.
  rewrite (dict_get_fmap_values (λ wc : K * Z, int_div wc.2 (len ws))).
  by rewrite dict_get_Counter, decide_True.
Qed.

Lemma p_drop_of_Counter ws :
  (∀ w, w ∈ ws → float_is_zero (word_frequency ws w) = false) →
  p_drop_of (Counter ws)
    ((λ wc : K * Z, (wc.1, int_div wc.2 (len ws))) <$> Counter ws)
  = Ok ((λ w, (w, drop_probability ws w)) <$> dict_keys (Counter ws)).
Proof.
  intros Hnz. unfold p_drop_of.
  rewrite (mapM_result_Ok _ (λ w, (w, drop_probability ws w))).
  - cbn [mbind result_bind mret result_ret]. rewrite dict_of_NoDup; [reflexivity|].
    rewrite <-list_fmap_compose. simpl. rewrite list_fmap_id.
    apply NoDup_Counter_keys.
  - intros w Hw. apply (proj1 (elem_of_Counter_keys ws w)) in Hw.
    rewrite frequency_lookup by done.
    cbn [mbind result_bind]. unfold float_truediv. by rewrite Hnz.
Qed.

Lemma train_words_sublist ws tape k tw k' :
  train_words ws tape k = Ok (tw, k') → tw `sublist_of` ws.
Proof.
  unfold train_words. rewrite bind_eq. unfold lift at 1.
  destruct (index _ _) as [first_item|]; [|done].
  rewrite bind_eq. unfold lift at 1.
  destruct (frequency_of _ _) as [frequency|]; [|done].
  rewrite bind_eq. unfold lift at 1.
  destruct (p_drop_of _ _) as [p_drop|]; [|done].
  apply select_each_sublist.
Qed.

Lemma Counter_first_item ws :
  ws ≠ [] → ∃ item, index (dict_items (Counter ws)) 0 = Ok item.
Proof.
  intros Hne. unfold index, dict_items. simpl.
  destruct (Counter ws) as [|item c] eqn:Hc; [|by exists item].
  destruct ws as [|w ws]; [done|].
  assert (w ∈ dict_keys (Counter (w :: ws))) as Hw
    by (apply elem_of_Counter_keys; left).
  rewrite Hc in Hw. by apply elem_of_nil in Hw.
Qed.

Lemma train_words_empty tape k :
  train_words (K := K) [] tape k = Raise IndexError.
Proof. done. Qed.

Lemma train_words_Ok ws tape k :
  ws ≠ [] →
  (∀ w, w ∈ ws → float_is_zero (word_frequency ws w) = false) →
  ∃ tw, train_words ws tape k = Ok (tw, (k + length ws)%nat).
Proof.
  intros Hne Hnz. unfold train_words.
  destruct (Counter_first_item ws Hne) as [item Hitem].
  rewrite bind_lift_Ok with (1 := Hitem).
  rewrite bind_lift_Ok with (1 := frequency_of_Counter ws).
  rewrite bind_lift_Ok with (1 := p_drop_of_Counter ws Hnz).
  apply select_each_Ok. intros w k0 Hw.
  eexists. rewrite bind_eq. unfold draw at 1.
  assert (dict_getitem ((λ w, (w, drop_probability ws w)) <$> dict_keys (Counter ws)) w
          = Ok (drop_probability ws w)) as Hp.
  { unfold dict_getitem. rewrite dict_get_fmap_keys; [done|].
    by apply elem_of_Counter_keys. }
  by rewrite bind_lift_Ok with (1 := Hp).
Qed.
End SubsamplingFacts.

(** C9: whatever the draws, the list [train_words] of the subsampler is a
    subsequence of [int_words]: its tokens are tokens of [int_words], in
    the same relative order, none more often than in [int_words].  And
    the subsampler does return a list, after one draw per token, when
    [int_words] is not empty (the cell prints the first count) and no
    frequency is the float zero (a zero frequency would stop it with
    ZeroDivisionError). *)
Theorem train_words_subsequence {F} `{Float F} {K} `{EqDecision K}
    (int_words : list K) (tape : nat → F) (k : nat) :
  (∀ tw k', train_words int_words tape k = Ok (tw, k') →
     tw `sublist_of` int_words
     ∧ (∀ w, (occurrences w tw ≤ occurrences w int_words)%nat)
     ∧ (∀ w, w ∈ tw → w ∈ int_words))
  ∧ (int_words ≠ [] →
     (∀ w, w ∈ int_words → float_is_zero (word_frequency int_words w) = false) →
     ∃ tw, train_words int_words tape k = Ok (tw, (k + length int_words)%nat)).
Proof.
  split.
  - intros tw k' Hsub%train_words_sublist. split_and!.
    + done.
    + intros w. by apply sublist_occurrences.
    + intros w Hw. by apply (sublist_subseteq _ _ Hsub).
  - apply train_words_Ok.
Qed.

Lemma train_words_subsequence_witness :
  ∃ tw, train_words [0; 1; 0; 2; 0; 1; 0; 3] (alternate 0x1p-10%float 0.5%float) 0%nat
        = Ok (tw, 8%nat)
        ∧ tw `sublist_of` [0; 1; 0; 2; 0; 1; 0; 3].
Proof.
  destruct (train_words_subsequence [0; 1; 0; 2; 0; 1; 0; 3]
              (alternate 0x1p-10%float 0.5%float) 0%nat) as [Hsub Hok].
  destruct Hok as [tw Htw].
  - done.
  - intros w Hw.
    repeat (apply elem_of_cons in Hw as [->|Hw]; [by vm_compute|]).
    by apply elem_of_nil in Hw.
  - exists tw. split; [done|]. by apply (Hsub tw 8%nat).
Defined.

(** ** Checkpoints *)

Lemma dict_get_app {K V} `{EqDecision K} (d1 d2 : list (K * V)) k :
  dict_get (d1 ++ d2) k
  = match dict_get d1 k with Some v => Some v | None => dict_get d2 k end.
Proof.
  induction d1 as [|[k0 v0] d1 IH]; [done|]. simpl. by case_decide.
Qed.

Section CheckpointFacts.
Context {R : Type}.
Implicit Types (l : fc_model.Linear R) (ls : list (fc_model.Linear R))
  (m : fc_model.Network R).

Lemma hidden_params_cons n l ls :
  hidden_params n (l :: ls) = layer_params n l ++ hidden_params (S n) ls.
Proof.
  unfold hidden_params. rewrite imap_cons. simpl. rewrite Nat.add_0_r.
  do 3 f_equal. apply imap_ext. intros j x _. simpl. f_equal. lia.
Qed.

Lemma state_dict_eq m :
  state_dict m
  = hidden_params 0 (fc_model.hidden_layers m)
    ++ [(output_weight, fc_model.weight (fc_model.output m));
        (output_bias, fc_model.bias (fc_model.output m))].
Proof. done. Qed.

Lemma hidden_params_keys n ls ls' :
  length ls = length ls' →
  dict_keys (hidden_params n ls) = dict_keys (hidden_params n ls').
Proof.
  revert n ls'. induction ls as [|l ls IH]; intros n [|l' ls'] Hlen; try done.
  rewrite !hidden_params_cons. unfold dict_keys in *.
  rewrite !fmap_app. f_equal. apply IH. simpl in Hlen. lia.
Qed.

Lemma hidden_params_output n ls k :
  k = output_weight ∨ k = output_bias → dict_get (hidden_params n ls) k = None.
Proof.
  intros Hk. revert n. induction ls as [|l ls IH]; intros n; [done|].
  rewrite hidden_params_cons, dict_get_app. unfold layer_params. cbn [dict_get].
  rewrite !decide_False by (destruct Hk; subst; done). apply IH.
Qed.

Lemma hidden_params_lookup n ls j l :
  ls !! j = Some l →
  dict_get (hidden_params n ls) (hidden_weight (n + j)) = Some (fc_model.weight l)
  ∧ dict_get (hidden_params n ls) (hidden_bias (n + j)) = Some (fc_model.bias l).
Proof.
  revert n j. induction ls as [|l0 ls IH]; intros n [|j] Hj; try done.
  - injection Hj as ->.
    rewrite hidden_params_cons, !dict_get_app, Nat.add_0_r.
    unfold layer_params. cbn [dict_get].
    rewrite (decide_True (P := hidden_weight n = hidden_weight n)) by done.
    rewrite (decide_False (P := hidden_weight n = hidden_bias n)) by done.
    by rewrite (decide_True (P := hidden_bias n = hidden_bias n)).
  - rewrite hidden_params_cons, !dict_get_app.
    unfold layer_params. cbn [dict_get].
    rewrite !decide_False by (intros [=]; lia || done).
    replace (n + S j)%nat with (S n + j)%nat by lia. apply IH. exact Hj.
Qed.
End CheckpointFacts.

Section LoadFacts.
Context {R : Type}.
Implicit Types (l : fc_model.Linear R) (ls : list (fc_model.Linear R))
  (m : fc_model.Network R) (sd : list (param_name * tensor R)).

Lemma load_Linear_same sd kw kb l l0 :
  dict_get sd kw = Some (fc_model.weight l) →
  dict_get sd kb = Some (fc_model.bias l) →
  Linear_shaped l →
  fc_model.in_features l0 = fc_model.in_features l →
  fc_model.out_features l0 = fc_model.out_features l →
  Linear_shaped l0 →
  load_Linear sd kw kb l0 = Ok l.
Proof.
  intros Hw Hb [Hsw Hsb] Hin Hout [Hsw0 Hsb0].
  unfold load_Linear, load_param. rewrite Hw, Hb.
  rewrite !decide_True by congruence.
  cbn [mbind result_bind mret result_ret]. rewrite Hin, Hout. by destruct l.
Qed.

Lemma new_Linear_shaped fresh kw kb i o :
  Linear_shaped (fc_model.new_Linear (R := R) fresh kw kb i o).
Proof. done. Qed.

Lemma load_hidden fresh sd n i ls :
  chained i ls →
  (∀ j l, ls !! j = Some l →
     dict_get sd (hidden_weight (n + j)) = Some (fc_model.weight l)
     ∧ dict_get sd (hidden_bias (n + j)) = Some (fc_model.bias l)) →
  mapM (λ il : nat * fc_model.Linear R,
          load_Linear sd (hidden_weight il.1) (hidden_bias il.1) il.2)
       (imap (λ j l, ((n + j)%nat, l))
          (fc_model.new_layers fresh n i (fc_model.out_features <$> ls)))
  = Ok ls.
Proof.
  revert n i. induction ls as [|l ls IH]; intros n i Hch Hsd; [done|].
  destruct Hch as (Hin & Hshape & Hch).
  rewrite fmap_cons. cbn [fc_model.new_layers]. rewrite imap_cons. cbn [mapM].
  destruct (Hsd 0%nat l eq_refl) as [Hw Hb].
  rewrite (load_Linear_same sd _ _ l); [|done..].
  cbn [mbind result_bind].
  rewrite (imap_ext _ (λ j l, ((S n + j)%nat, l))).
  2:{ intros j x _. simpl. f_equal. lia. }
  rewrite IH; [done|done|].
  intros j l' Hj. replace (S n + j)%nat with (n + S j)%nat by lia.
  by apply Hsd.
Qed.

Lemma new_layers_length fresh n i (sizes : list Z) :
  length (fc_model.new_layers (R := R) fresh n i sizes) = length sizes.
Proof.
  revert n i. induction sizes as [|h sizes IH]; intros n i; simpl; [done|].
  by rewrite IH.
Qed.

(** Loading the state of a model into a new model of the same sizes
    gives the model back. *)
Lemma load_state_dict_init fresh m i o :
  well_formed m i o →
  ∃ m0,
    fc_model.init fresh i o (hidden_sizes_of m) = Ok m0
    ∧ load_state_dict m0 (state_dict m) = Ok m.
Proof.
  intros (Hch & Hout & Hlast & Ho).
  unfold fc_model.init. rewrite <-Hlast. eexists. split; [done|].
  unfold load_state_dict. cbn [fc_model.hidden_layers fc_model.output].
  rewrite decide_True.
  2:{ match goal with
      | |- Forall (λ k, k ∈ dict_keys ?a) (dict_keys ?b) =>
          assert (dict_keys a = dict_keys b) as ->
      end; [|apply Forall_forall; by intros k Hk].
      rewrite !state_dict_eq. cbn [fc_model.hidden_layers fc_model.output].
      unfold dict_keys. rewrite !fmap_app. f_equal.
      apply hidden_params_keys.
      unfold hidden_sizes_of. by rewrite new_layers_length, length_fmap. }
  rewrite (imap_ext _ (λ j l, ((0 + j)%nat, l))) by done.
  unfold hidden_sizes_of. rewrite (load_hidden fresh (state_dict m) 0 i).
  - cbn [mbind result_bind].
    rewrite (load_Linear_same (state_dict m) _ _ (fc_model.output m)); try done.
    + by destruct m.
    + by rewrite state_dict_eq, dict_get_app, hidden_params_output by auto.
    + by rewrite state_dict_eq, dict_get_app, hidden_params_output by auto.
  - done.
  - intros j l Hj. rewrite state_dict_eq, !dict_get_app.
    destruct (hidden_params_lookup 0 _ j l Hj) as [-> ->]. done.
Qed.
End LoadFacts.

Lemma torch_load_save {R} (files : list (string * Checkpoint R)) obj path :
  torch_load (torch_save files obj path) path = Ok obj.
Proof. unfold torch_load, torch_save. by rewrite dict_get_set, decide_True. Qed.

(** A checkpoint that holds the sizes and the state of a model loads as
    that model. *)
Lemma load_checkpoint_faithful {R} fresh files path (m : fc_model.Network R) i o :
  well_formed m i o →
  load_checkpoint fresh (torch_save files (checkpoint_with i o m) path) path
  = Ok m.
Proof.
  intros Hwf. unfold load_checkpoint. rewrite torch_load_save.
  cbn [mbind result_bind checkpoint_with
       cp_input_size cp_output_size cp_hidden_layers cp_state_dict].
  change (fc_model.out_features <$> fc_model.hidden_layers m)
    with (hidden_sizes_of m).
  destruct (load_state_dict_init fresh m i o Hwf) as (m0 & -> & Hload).
  cbn [mbind result_bind]. by rewrite Hload.
Qed.

Lemma well_formed_input_size {R} (m : fc_model.Network R) i o :
  well_formed m i o → input_size_of m = Some i.
Proof.
  intros (Hch & _ & Hlast & _). unfold input_size_of, hidden_sizes_of in *.
  destruct (fc_model.hidden_layers m) as [|l ls]; [done|].
  destruct Hch as (<- & _). done.
Qed.

Example checkpoint_run :
  load_checkpoint zero_entries
    (torch_save [] (checkpoint notebook_model) "checkpoint.pth") "checkpoint.pth"
  = Ok notebook_model.
Proof. vm_compute. reflexivity. Qed.

(** C8: for every model, of any input size [i] and output size [o], whose
    layers are chained and whose parameters have the shapes of their
    layers, the checkpoint that holds [i], [o], the hidden sizes and the
    state of the model, once saved, is loaded by [load_checkpoint] as a
    model of the same input size, output size and hidden sizes, with the
    same state: the same model.  The checkpoint that the cell of the
    notebook builds is this checkpoint for the models of the notebook,
    which have 784 inputs and 10 outputs. *)
Theorem load_checkpoint_roundtrip {R} fresh files path (m : fc_model.Network R) i o :
  well_formed m i o →
  (∃ loaded,
     load_checkpoint fresh (torch_save files (checkpoint_with i o m) path) path
     = Ok loaded
     ∧ input_size_of loaded = Some i
     ∧ input_size_of loaded = input_size_of m
     ∧ output_size_of loaded = output_size_of m
     ∧ hidden_sizes_of loaded = hidden_sizes_of m
     ∧ state_dict loaded = state_dict m
     ∧ loaded = m)
  ∧ (i = 784 → o = 10 → checkpoint m = checkpoint_with i o m).
Proof.
  intros Hwf. split.
  - exists m. split_and!; [|by apply (well_formed_input_size m i o)|done..].
    by apply load_checkpoint_faithful.
  - by intros -> ->.
Qed.

Lemma load_checkpoint_roundtrip_witness :
  (∃ loaded,
     load_checkpoint zero_entries
       (torch_save [] (checkpoint_with 2 1 small_model) "checkpoint.pth")
       "checkpoint.pth"
     = Ok loaded
     ∧ loaded = small_model)
  ∧ (∃ loaded,
       load_checkpoint zero_entries
         (torch_save [] (checkpoint notebook_model) "checkpoint.pth")
         "checkpoint.pth"
       = Ok loaded
       ∧ loaded = notebook_model).
Proof.
  split.
  - destruct (load_checkpoint_roundtrip zero_entries [] "checkpoint.pth"
                small_model 2 1) as [(loaded & Hload & Hrest) _].
    + by repeat split.
    + exists loaded. split; [exact Hload|]. apply Hrest.
  - destruct (load_checkpoint_roundtrip zero_entries [] "checkpoint.pth"
                notebook_model 784 10) as [(loaded & Hload & Hrest) Hcell].
    + by repeat split.
    + exists loaded. rewrite Hcell by done. split; [exact Hload|]. apply Hrest.
Defined.

(** * Further properties *)

(** ** Encoding words as integers *)

Lemma mapM_result_fmap {A B C} (g : A → B) (f : B → result C) (l : list A) :
  mapM f (g <$> l) = mapM (λ a, f (g a)) l.
Proof.
  induction l as [|a l IH]; [done|].
  rewrite fmap_cons. cbn [mapM]. by rewrite IH.
Qed.

Lemma mapM_result_Raise_elem {A B} (f : A → result B) (l : list A) a e :
  a ∈ l → f a = Raise e → (∀ b, b ∈ l → ∀ e', f b = Raise e' → e' = e) →
  mapM f l = Raise e.
Proof.
  induction l as [|b l IH]; [by intros ?%elem_of_nil|].
  intros Ha Hfa Hall. cbn [mapM].
  destruct (f b) as [y|e'] eqn:Hfb; cbn [mbind result_bind].
  - apply elem_of_cons in Ha as [->|Ha]; [congruence|].
    rewrite IH; [done..|]. intros b' Hb'. apply Hall. by right.
  - f_equal. apply (Hall b); [left|done].
Qed.

Lemma vocab_to_int_len {K} `{EqDecision K} (words : list K) :
  len (create_lookup_tables words).1 = Z.of_nat (length (sorted_vocab_of words)).
Proof.
  rewrite create_lookup_tables_eq. simpl.
  unfold len, enumerate. by rewrite length_fmap, length_imap.
Qed.

(** The cell that encodes the words: no word is missing from
    [vocab_to_int], the list of ids has the length of the list of words
    and is decoded by [int_to_vocab] into the words again; each id is an
    index below the size of the vocabulary. *)
Theorem int_words_round_trip {K} `{EqDecision K} (words : list K) :
  let vocab_to_int := (create_lookup_tables words).1 in
  let int_to_vocab := (create_lookup_tables words).2 in
  ∃ int_words,
    int_words_of vocab_to_int words = Ok int_words
    ∧ length int_words = length words
    ∧ words_of int_to_vocab int_words = Ok words
    ∧ Forall (λ i, 0 ≤ i < len vocab_to_int) int_words.
Proof.
  intros v2i i2v. subst v2i i2v.
  set (id_of := λ w, default 0 (dict_get (create_lookup_tables words).1 w)).
  assert (∀ w, w ∈ words →
            dict_getitem (create_lookup_tables words).1 w = Ok (id_of w)
            ∧ dict_getitem (create_lookup_tables words).2 (id_of w) = Ok w
            ∧ 0 ≤ id_of w < len (create_lookup_tables words).1) as Hid.
  { intros w Hw.
    apply elem_of_sorted_vocab in Hw as [j Hj]%list_elem_of_lookup.
    assert (dict_get (create_lookup_tables words).1 w = Some (Z.of_nat j)) as Hget
      by (apply vocab_to_int_lookup; rewrite Nat2Z.id; split; [lia|done]).
    unfold id_of. rewrite !dict_getitem_Ok, vocab_to_int_len, Hget.
    cbn [default from_option id]. split_and!.
    - done.
    - apply int_to_vocab_lookup. rewrite Nat2Z.id. split; [lia|done].
    - lia.
    - apply lookup_lt_Some in Hj. lia. }
  exists (id_of <$> words). unfold int_words_of, words_of. split_and!.
  - apply mapM_result_Ok. intros w Hw. by apply Hid.
  - by rewrite length_fmap.
  - rewrite mapM_result_fmap.
    rewrite (mapM_result_Ok _ (λ w, w)); [by rewrite list_fmap_id|].
    intros w Hw. by apply Hid.
  - apply Forall_fmap, Forall_forall. intros w Hw. by apply Hid.
Qed.

(** A word outside the vocabulary stops the encoding with [KeyError]. *)
Theorem int_words_unknown_word {K} `{EqDecision K} (words text : list K) w :
  w ∈ text → w ∉ words →
  int_words_of (create_lookup_tables words).1 text = Raise KeyError.
Proof.
  intros Hw Hnot. unfold int_words_of.
  apply (mapM_result_Raise_elem _ _ w); [done| |].
  - unfold dict_getitem.
    destruct (dict_get _ w) as [i|] eqn:Hget; [|done].
    apply vocab_to_int_lookup in Hget as [_ Hget].
    destruct Hnot. apply elem_of_sorted_vocab, list_elem_of_lookup. eauto.
  - intros b _ e'. unfold dict_getitem. by destruct (dict_get _ b); [|intros [= <-]].
Qed.

Lemma int_words_unknown_word_witness :
  int_words_of (create_lookup_tables (lit <$> ["a"; "b"; "a"])).1
    (lit <$> ["a"; "c"]) = Raise KeyError.
Proof.
  apply (int_words_unknown_word (lit <$> ["a"; "b"; "a"]) (lit <$> ["a"; "c"]) (lit "c")).
  - apply list_elem_of_fmap_2. right. left.
  - intros Hin. vm_compute in Hin.
    repeat (apply elem_of_cons in Hin as [Hin|Hin]; [discriminate Hin|]).
    by apply elem_of_nil in Hin.
Defined.

(** ** Ties in [create_lookup_tables] *)

Section BeforeFacts.
Context {K : Type} `{EqDecision K}.
Implicit Types (l : list K) (key : K → Z).

Lemma before_cons a b c l : before a b l → before a b (c :: l).
Proof. intros (x & y & z & ->). by exists (c :: x), y, z. Qed.

Lemma before_head a b l : b ∈ l → before a b (a :: l).
Proof.
  intros (y & z & ->)%list_elem_of_split. by exists [], y, z.
Qed.

Lemma before_snoc a b c l : before a b l → before a b (l ++ [c]).
Proof.
  intros (x & y & z & ->). exists x, y, (z ++ [c]).
  by rewrite <-!app_assoc, <-!app_comm_cons, <-app_assoc.
Qed.

Lemma before_last a b l : a ∈ l → before a b (l ++ [b]).
Proof.
  intros (x & y & ->)%list_elem_of_split. exists x, y, [].
  by rewrite <-app_assoc.
Qed.

Lemma before_lookup a b l (i j : nat) :
  NoDup l → before a b l → l !! i = Some a → l !! j = Some b → (i < j)%nat.
Proof.
  intros Hnd (x & y & z & ->) Hi Hj.
  assert ((x ++ a :: y ++ b :: z) !! length x = Some a) as Ha
    by (by apply list_lookup_middle).
  assert ((x ++ a :: y ++ b :: z) !! (length x + S (length y))%nat = Some b) as Hb.
  { rewrite lookup_app_r by lia.
    replace (length x + S (length y) - length x)%nat with (S (length y)) by lia.
    simpl. by apply list_lookup_middle. }
  rewrite (NoDup_lookup _ _ _ _ Hnd Hi Ha), (NoDup_lookup _ _ _ _ Hnd Hj Hb). lia.
Qed.

(** A stable sort: an element stays before the later elements that have
    no greater key. *)
Lemma insert_desc_before key a b c l :
  before a b l → before a b (insert_desc key c l).
Proof.
  induction l as [|y l IH]; simpl.
  - intros (x & ? & ? & Heq). by destruct x.
  - intros Hb. case_match; [by apply before_cons|].
    destruct Hb as ([|y' x] & y0 & z & Heq); simplify_eq/=.
    + apply before_head. rewrite insert_desc_perm.
      right. apply elem_of_app. right. left.
    + apply before_cons, IH. by exists x, y0, z.
Qed.

Lemma insert_desc_head_before key a b l :
  b ∈ l → key b ≤ key a → before a b (insert_desc key a l).
Proof.
  induction l as [|y l IH]; [by intros ?%elem_of_nil|].
  intros Hb Hle. simpl. destruct (Z.leb_spec (key y) (key a)).
  - by apply before_head.
  - apply before_cons, IH; [|done].
    apply elem_of_cons in Hb as [->|Hb]; [lia|done].
Qed.

Lemma sorted_reverse_before key a b l :
  before a b l → key b ≤ key a → before a b (sorted_reverse key l).
Proof.
  intros (x & y & z & ->) Hle. unfold sorted_reverse.
  induction x as [|c x IH]; simpl.
  - apply insert_desc_head_before; [|done].
    fold (sorted_reverse key (y ++ b :: z)). rewrite sorted_reverse_perm.
    apply elem_of_app. right. left.
  - by apply insert_desc_before.
Qed.

(** The keys of a [Counter] are in the order of their first occurrence. *)
Lemma Counter_keys_before (l1 l2 : list K) w1 w2 :
  w2 ∉ l1 → w2 ∈ l2 → w1 ≠ w2 →
  before w1 w2 (dict_keys (Counter (l1 ++ w1 :: l2))).
Proof.
  intros Hnot Hin Hne.
  induction l2 as [|c l2 IH] using rev_ind; [by apply elem_of_nil in Hin|].
  rewrite app_comm_cons, app_assoc, Counter_snoc, dict_keys_set.
  destruct (decide (w2 ∈ l2)) as [Hl2|Hl2].
  - case_decide; [by apply IH|]. by apply before_snoc, IH.
  - apply elem_of_app in Hin as [?|Hc%list_elem_of_singleton]; [done|subst c].
    rewrite decide_False.
    2:{ rewrite elem_of_Counter_keys, elem_of_app, elem_of_cons. intros [?|[?|?]]; done. }
    apply before_last. rewrite elem_of_Counter_keys, elem_of_app. right. left.
Qed.
End BeforeFacts.

(** Of two words, the one that occurs first in the text gets the smaller
    id unless the other one occurs more often: words of equal count are
    numbered in the order of their first occurrence. *)
Theorem create_lookup_tables_ties {K} `{EqDecision K}
    (words l1 l2 : list K) w1 w2 i1 i2 :
  words = l1 ++ w1 :: l2 → w2 ∉ l1 → w2 ∈ l2 → w1 ≠ w2 →
  (occurrences w2 words ≤ occurrences w1 words)%nat →
  dict_getitem (create_lookup_tables words).1 w1 = Ok i1 →
  dict_getitem (create_lookup_tables words).1 w2 = Ok i2 →
  i1 < i2.
Proof.
  intros -> Hnot Hin Hne Hocc.
  rewrite !dict_getitem_Ok, !vocab_to_int_lookup. intros [? H1] [? H2].
  pose proof (Counter_keys_before l1 l2 w1 w2 Hnot Hin Hne) as Hb.
  apply (sorted_reverse_before
           (counter_getitem (Counter (l1 ++ w1 :: l2)))) in Hb.
  2:{ rewrite !counter_getitem_Counter. lia. }
  pose proof (before_lookup _ _ _ _ _ (NoDup_sorted_vocab _) Hb H1 H2). lia.
Qed.

Lemma create_lookup_tables_ties_witness :
  let words := lit <$> ["c"; "a"; "b"; "c"; "b"; "a"] in
  dict_getitem (create_lookup_tables words).1 (lit "a") = Ok 1
  ∧ dict_getitem (create_lookup_tables words).1 (lit "b") = Ok 2
  ∧ 1 < 2.
Proof.
  split; [reflexivity|]. split; [reflexivity|].
  apply (create_lookup_tables_ties (lit <$> ["c"; "a"; "b"; "c"; "b"; "a"])
           [lit "c"] (lit <$> ["b"; "c"; "b"; "a"]) (lit "a") (lit "b") 1 2).
  - reflexivity.
  - intros Hin. apply list_elem_of_singleton in Hin. discriminate Hin.
  - apply list_elem_of_fmap_2. left.
  - discriminate.
  - vm_compute. lia.
  - reflexivity.
  - reflexivity.
Defined.

(** ** The window of [get_target] *)

Section WindowFacts.
Context {A : Type}.
Implicit Types ws : list A.

Lemma slice_length_le ws lo hi :
  0 ≤ lo → 0 ≤ hi → len (slice ws lo hi) ≤ Z.max 0 (hi - lo).
Proof.
  intros. rewrite slice_nonneg by done. unfold len. rewrite length_take. lia.
Qed.

Lemma elem_of_slice ws lo hi x : x ∈ slice ws lo hi → x ∈ ws.
Proof.
  unfold slice. intros Hx. by apply subseteq_take, subseteq_drop in Hx.
Qed.

Lemma window_right ws idx R :
  0 ≤ idx → 1 ≤ R →
  slice ws (idx + 1) (Z.min (len ws - 1) (idx + R) + 1)
  = slice ws (idx + 1) (idx + R + 1).
Proof.
  intros. unfold slice, slice_bound.
  destruct (Z.ltb_spec (idx + 1) 0); [lia|].
  destruct (Z.ltb_spec (idx + R + 1) 0); [lia|].
  destruct (Z.ltb_spec (Z.min (len ws - 1) (idx + R) + 1) 0).
  - unfold len in *. lia.
  - do 2 f_equal. lia.
Qed.

Lemma slice_from_3_sublist ws idx :
  0 ≤ idx → slice ws 3 idx `sublist_of` slice ws 0 idx.
Proof.
  intros. rewrite !slice_nonneg by lia.
  change (Z.to_nat 3) with 3%nat. change (Z.to_nat 0) with 0%nat.
  rewrite drop_0. destruct (decide (idx < 3)).
  - replace (Z.to_nat idx - 3)%nat with 0%nat by lia. apply sublist_nil_l.
  - assert (take (Z.to_nat idx - 0) ws
            = take 3 ws ++ take (Z.to_nat idx - 3) (drop 3 ws)) as ->
      by (rewrite take_take_drop; f_equal; lia).
    apply sublist_inserts_l. done.
Qed.
End WindowFacts.

(** For a window size from 1 to 2^63 - 1, [get_target] returns the window
    its documentation describes when the window does not reach the start
    of the list (idx - R > 0).  When it does, the tokens it returns are
    still tokens of that window, in order, but the left part starts at
    position 3: for idx <= 3 only the tokens after [idx] are returned. *)
Theorem get_target_documented_window {A} (ws : list A) idx window_size tape k :
  0 ≤ idx < len ws → 1 ≤ window_size ≤ int64_max →
  let R := radius window_size (tape k) in
  ∃ res,
    get_target ws idx window_size tape k = Ok (res, S k)
    ∧ 1 ≤ R ≤ window_size
    ∧ res `sublist_of` window_spec ws idx R
    ∧ (0 < idx - R → res = window_spec ws idx R)
    ∧ (idx - R ≤ 0 → res = slice ws 3 idx ++ slice ws (idx + 1) (idx + R + 1))
    ∧ (idx - R ≤ 0 → idx ≤ 3 → res = slice ws (idx + 1) (idx + R + 1)).
Proof.
  intros Hidx Hw R.
  pose proof (radius_range window_size (tape k) (proj1 Hw)) as HR.
  fold R in HR. exists (target_of ws idx R).
  split; [by apply get_target_eq|]. split; [done|].
  assert (idx - R ≤ 0 →
          target_of ws idx R = slice ws 3 idx ++ slice ws (idx + 1) (idx + R + 1))
    as Hnear.
  { intros Hle. unfold target_of, np_where.
    by destruct (Z.ltb_spec 0 (idx - R)); [lia|]. }
  split_and!.
  - destruct (decide (0 < idx - R)) as [Hfar|Hnear'].
    + by rewrite target_of_window_spec by lia.
    + rewrite Hnear by lia. unfold window_spec.
      rewrite window_right, Z.max_l by lia.
      apply sublist_app; [|done]. apply slice_from_3_sublist. lia.
  - intros Hfar. apply target_of_window_spec; lia.
  - done.
  - intros Hle H3. rewrite Hnear by done.
    replace (slice ws 3 idx) with (@nil A); [done|].
    rewrite slice_nonneg by lia.
    by replace (Z.to_nat idx - Z.to_nat 3)%nat with 0%nat by lia.
Qed.

Lemma get_target_documented_window_witness :
  ∃ res,
    get_target [10; 20; 30; 40; 50; 60; 70] 5 2 (const_tape 1) 0%nat = Ok (res, 1%nat)
    ∧ res = window_spec [10; 20; 30; 40; 50; 60; 70] 5 2.
Proof.
  destruct (get_target_documented_window [10; 20; 30; 40; 50; 60; 70] 5 2
              (const_tape 1) 0%nat) as (res & Hres & _ & _ & Hfar & _).
  - by vm_compute.
  - by vm_compute.
  - exists res. split; [done|]. apply Hfar. by vm_compute.
Defined.

(** For a window size from 1 to 2^63 - 1, the tokens that [get_target]
    returns come from positions of the list that are within the radius of
    [idx], and never from position 0: the left bound of the window is at
    least 1.  There are at most 2 R of them. *)
Theorem get_target_positions {A} (ws : list A) idx window_size tape k :
  0 ≤ idx < len ws → 1 ≤ window_size ≤ int64_max →
  let R := radius window_size (tape k) in
  ∃ res : list (Z * A),
    get_target (enumerate ws) idx window_size tape k = Ok (res, S k)
    ∧ (∀ p x, (p, x) ∈ res →
         1 ≤ p < len ws ∧ idx - R ≤ p ≤ idx + R ∧ ws !! Z.to_nat p = Some x)
    ∧ len res ≤ 2 * R
    ∧ len res ≤ 2 * window_size.
Proof.
  intros Hidx Hw R.
  pose proof (radius_range window_size (tape k) (proj1 Hw)) as HR.
  fold R in HR. exists (target_of (enumerate ws) idx R).
  split; [by apply get_target_eq|].
  assert (1 ≤ np_where (0 <? idx - R) (idx - R) 3
          ∧ idx - R ≤ np_where (0 <? idx - R) (idx - R) 3) as [Hf1 Hf2].
  { unfold np_where. case_match; lia. }
  assert (len (target_of (enumerate ws) idx R) ≤ 2 * R) as Hlen.
  { unfold target_of. unfold len at 1. rewrite length_app, Nat2Z.inj_add.
    pose proof (slice_length_le (enumerate ws)
                  (np_where (0 <? idx - R) (idx - R) 3) idx ltac:(lia) ltac:(lia)).
    pose proof (slice_length_le (enumerate ws) (idx + 1) (idx + R + 1)
                  ltac:(lia) ltac:(lia)).
    unfold len in *. lia. }
  split_and!; [|done|lia].
  intros p x Hin.
  assert ((p, x) ∈ enumerate ws) as Hel.
  { apply elem_of_app in Hin as [Hin|Hin]; by apply elem_of_slice in Hin. }
  apply elem_of_enumerate in Hel as [Hp Hx].
  pose proof (lookup_lt_Some _ _ _ Hx) as Hlt. unfold len.
  split_and!; [..|done];
    (apply elem_of_app in Hin as [Hin|Hin];
     apply slice_enumerate_position in Hin; lia).
Qed.

Lemma get_target_positions_witness :
  ∃ res : list (Z * Z),
    get_target (enumerate [10; 20; 30; 40; 50]) 2 5 (const_tape 0) 0%nat
    = Ok (res, 1%nat)
    ∧ len res ≤ 10.
Proof.
  destruct (get_target_positions [10; 20; 30; 40; 50] 2 5 (const_tape 0) 0%nat)
    as (res & Hres & _ & _ & Hlen).
  - by vm_compute.
  - by vm_compute.
  - by exists res.
Defined.

(** ** [get_batches] outside its domain *)

(** With a batch size of zero [get_batches] stops on the division; with a
    negative batch size it yields no batch at all, and draws nothing. *)
Theorem get_batches_nonpositive_batch_size {A} (ws : list A)
    batch_size window_size tape k :
  batch_size ≤ 0 →
  get_batches ws batch_size window_size tape k
  = if batch_size =? 0 then Raise ZeroDivisionError else Ok ([], k).
Proof.
  intros Hbs. destruct (Z.eqb_spec batch_size 0) as [->|Hne]; [done|].
  unfold get_batches.
  rewrite bind_lift_Ok with (a := len ws / batch_size)
    by (unfold floordiv; by destruct (Z.eqb_spec batch_size 0)).
  rewrite bind_lift_Ok with (a := []); [done|].
  apply range_negative_step; unfold len; lia.
Qed.

Lemma get_batches_nonpositive_batch_size_witness :
  get_batches [1; 2; 3; 4; 5; 6; 7; 8; 9; 10] (-3) 5 (const_tape 0) 0%nat
  = Ok ([], 0%nat)
  ∧ get_batches [1; 2; 3] 0 5 (const_tape 0) 0%nat = Raise ZeroDivisionError.
Proof.
  split.
  - apply (get_batches_nonpositive_batch_size [1; 2; 3; 4; 5; 6; 7; 8; 9; 10]
             (-3) 5 (const_tape 0) 0%nat). lia.
  - apply (get_batches_nonpositive_batch_size [1; 2; 3] 0 5 (const_tape 0) 0%nat).
    lia.
Defined.

(** With a window size below 1 the generator stops with [ValueError] on
    its first batch, at the first draw of a radius; when the list is
    shorter than a batch there is no batch and no error. *)
Theorem get_batches_small_window {A} (ws : list A)
    batch_size window_size tape k :
  0 < batch_size → window_size < 1 →
  get_batches ws batch_size window_size tape k
  = if len ws <? batch_size then Ok ([], k) else Raise ValueError.
Proof.
  intros Hbs Hw. rewrite get_batches_eq by done.
  destruct (Z.ltb_spec (len ws) batch_size) as [Hlt|Hge].
  - by rewrite Z.div_small by (unfold len in *; lia).
  - assert (1 ≤ len ws / batch_size) as Hn
      by (apply Z.div_le_lower_bound; lia).
    destruct (Z.to_nat (len ws / batch_size)) as [|n] eqn:Hn'; [lia|].
    cbn [seq]. rewrite yield_each_cons, inner_loop_raise; [done| |lia].
    pose proof (chunk_length ws batch_size 0 Hbs ltac:(lia)) as Hlen.
    intros Hnil. rewrite Hnil in Hlen. unfold len in Hlen. simpl in Hlen. lia.
Qed.

Lemma get_batches_small_window_witness :
  get_batches [1; 2; 3; 4; 5] 2 0 (const_tape 0) 0%nat = Raise ValueError
  ∧ get_batches [1] 2 0 (const_tape 0) 0%nat = Ok ([], 0%nat).
Proof.
  split.
  - apply (get_batches_small_window [1; 2; 3; 4; 5] 2 0 (const_tape 0) 0%nat); lia.
  - apply (get_batches_small_window [1] 2 0 (const_tape 0) 0%nat); lia.
Defined.

(** ** What a batch is made of *)

Section BatchContentFacts.
Context {A : Type}.
Implicit Types (ws batch : list A) (targets : list (list A)).

Lemma target_of_length ws idx R :
  0 ≤ idx → 1 ≤ R → len (target_of ws idx R) ≤ 2 * R.
Proof.
  intros Hidx HR. unfold target_of. unfold len at 1.
  rewrite length_app, Nat2Z.inj_add.
  assert (1 ≤ np_where (0 <? idx - R) (idx - R) 3
          ∧ idx - R ≤ np_where (0 <? idx - R) (idx - R) 3) as [Hf1 Hf2].
  { unfold np_where. case_match; lia. }
  pose proof (slice_length_le ws (np_where (0 <? idx - R) (idx - R) 3) idx
                ltac:(lia) ltac:(lia)).
  pose proof (slice_length_le ws (idx + 1) (idx + R + 1) ltac:(lia) ltac:(lia)).
  unfold len in *. lia.
Qed.

Lemma elem_of_target_of ws idx R x : x ∈ target_of ws idx R → x ∈ ws.
Proof. intros [?|?]%elem_of_app; by eapply elem_of_slice. Qed.

(** The targets that the inner loop draws for the positions [iis]. *)
Lemma yield_targets batch window_size (iis : list Z) tape k targets k' :
  1 ≤ window_size ≤ int64_max → Forall (λ ii, 0 ≤ ii) iis →
  yield_each (λ ii, get_target batch ii window_size) iis tape k = Ok (targets, k') →
  Forall (λ t, (∀ x, x ∈ t → x ∈ batch) ∧ len t ≤ 2 * window_size) targets.
Proof.
  intros Hw Hpos. revert k targets.
  induction Hpos as [|ii iis Hii _ IH]; intros k targets.
  - intros [= <- _]. constructor.
  - rewrite yield_each_cons, get_target_eq by done.
    destruct (yield_each _ iis tape (S k)) as [[ts k1]|] eqn:Hrest; [|done].
    intros [= <- ->]. constructor; [|by eapply IH].
    pose proof (radius_range window_size (tape k) (proj1 Hw)).
    split; [intros x; apply elem_of_target_of|].
    pose proof (target_of_length batch ii (radius window_size (tape k))
                  Hii ltac:(lia)). lia.
Qed.

Lemma elem_of_centers_of (cs : list A) targets x :
  x ∈ centers_of cs targets → x ∈ cs.
Proof.
  unfold centers_of. revert targets.
  induction cs as [|c cs IH]; intros [|t targets]; simpl;
    try (by intros ?%elem_of_nil).
  intros [Hx|Hx]%elem_of_app.
  - apply elem_of_replicate in Hx as [-> _]. left.
  - right. by eapply IH.
Qed.

Lemma join_bounded targets (P : A → Prop) (b : Z) :
  Forall (λ t, (∀ x, x ∈ t → P x) ∧ len t ≤ b) targets →
  (∀ x, x ∈ mjoin targets → P x)
  ∧ len (mjoin targets) ≤ Z.of_nat (length targets) * b.
Proof.
  induction 1 as [|t targets [Ht Hlen] _ [IH1 IH2]]; simpl.
  - split; [by intros x ?%elem_of_nil|unfold len; simpl; lia].
  - split.
    + intros x [?|?]%elem_of_app; auto.
    + unfold len in *. rewrite length_app. lia.
Qed.
End BatchContentFacts.

(** For a positive batch size and a window size from 1 to 2^63 - 1,
    every center and every context token of a batch is a token of the
    chunk of that batch: context windows never reach into the next or the
    previous batch.  A batch holds at most 2 * window_size pairs per
    token, and the generator draws one radius per token of the full
    batches. *)
Theorem get_batches_within_chunk {A} (ws : list A)
    batch_size window_size tape k :
  0 < batch_size → 1 ≤ window_size ≤ int64_max →
  let n := Z.to_nat (len ws / batch_size) in
  ∃ batches,
    get_batches ws batch_size window_size tape k
    = Ok (batches, (k + n * Z.to_nat batch_size)%nat)
    ∧ ∀ i x y, batches !! i = Some (x, y) →
        (∀ t, t ∈ x → t ∈ chunk ws batch_size i)
        ∧ (∀ t, t ∈ y → t ∈ chunk ws batch_size i)
        ∧ len y ≤ 2 * window_size * batch_size.
Proof.
  intros Hbs Hw n.
  destruct (get_batches_steps ws batch_size window_size tape k Hbs Hw)
    as (batches & Hrun & Hlen & Hith).
  exists batches. split; [done|]. intros i x y Hxy.
  specialize (Hith i (x, y) Hxy).
  destruct (inner_loop_eq (chunk ws batch_size i) window_size tape
              (k + i * Z.to_nat batch_size)%nat Hw) as (targets & Hys & Hlt & Hloop).
  rewrite Hith in Hloop. simplify_eq.
  apply yield_targets in Hys; [|done|].
  2:{ apply Forall_fmap, Forall_forall. intros j _. simpl. lia. }
  apply join_bounded in Hys as [Hin Hbound].
  assert (len (chunk ws batch_size i) = batch_size) as Hchunk.
  { apply chunk_length; [done|]. apply lookup_lt_Some in Hxy.
    pose proof (Z.div_pos (len ws) batch_size ltac:(unfold len; lia) Hbs). lia. }
  split_and!.
  - intros t. apply elem_of_centers_of.
  - done.
  - unfold len in Hchunk. rewrite Hlt in Hbound. lia.
Qed.

Lemma get_batches_within_chunk_witness :
  ∃ batches,
    get_batches (enumerate [10; 20; 30; 40; 50; 60; 70]) 3 2 (const_tape 1) 0%nat
    = Ok (batches, 6%nat)
    ∧ ∀ i x y, batches !! i = Some (x, y) →
        ∀ p t, (p, t) ∈ y → Z.of_nat i * 3 ≤ p < (Z.of_nat i + 1) * 3.
Proof.
  destruct (get_batches_within_chunk (enumerate [10; 20; 30; 40; 50; 60; 70])
              3 2 (const_tape 1) 0%nat) as (batches & Hrun & Hin);
    [lia|by vm_compute|].
  exists batches. split; [exact Hrun|].
  intros i x y Hxy p t Hy. destruct (Hin i x y Hxy) as (_ & Hy' & _).
  apply Hy' in Hy. by apply slice_enumerate_position in Hy; [|lia..].
Defined.

(** ** The tokens of [preprocess] *)

Lemma split_from_tokens (cur s t : str) :
  Forall (λ c, isspace c = false) cur →
  t ∈ split_from cur s →
  t ≠ [] ∧ Forall (λ c, isspace c = false) t.
Proof.
  revert cur. induction s as [|c s IH]; intros cur Hcur; simpl.
  - destruct cur as [|c0 cur]; [by intros ?%elem_of_nil|].
    by intros ->%list_elem_of_singleton.
  - destruct (isspace c) eqn:Hc.
    + destruct cur as [|c0 cur]; [by apply IH|].
      intros [->|Ht]%elem_of_cons; [done|]. by apply (IH []).
    + apply IH. apply Forall_app. split; [done|]. by constructor.
Qed.

Lemma lower_char_idemp c : lower_char (lower_char c) = lower_char c.
Proof. by destruct c as [[] [] [] [] [] [] [] []]. Qed.

Lemma isspace_plain c :
  isspace c = true → lower_char c = c ∧ sentinel c = None ∧ c ≠ hyphen.
Proof. by destruct c as [[] [] [] [] [] [] [] []]. Qed.

(** Every token of the tokenized text, and so every token that
    [preprocess] returns, is a non-empty word without whitespace. *)
Theorem preprocess_tokens_are_words (text : str) :
  Forall (λ t : str, t ≠ [] ∧ Forall (λ c, isspace c = false) t) (tokenize text)
  ∧ Forall (λ t : str, t ≠ [] ∧ Forall (λ c, isspace c = false) t) (preprocess text).
Proof.
  assert (Forall (λ t : str, t ≠ [] ∧ Forall (λ c, isspace c = false) t)
            (tokenize text)) as Htok.
  { apply Forall_forall. intros t Ht. by apply (split_from_tokens [] _ t) in Ht. }
  split; [done|]. rewrite preprocess_eq. apply Forall_forall.
  intros t [_ Ht]%list_elem_of_filter. rewrite Forall_forall in Htok. by apply Htok.
Qed.

(** A punctuation character cuts the text in two.  When the lowercased
    text reads [a], then a punctuation character [c] of the table, then
    [b], its tokens are the tokens of [a], then the token of the sentinel
    of [c], then the tokens of [b]. *)
Theorem tokenize_at_punctuation (text a b : str) c t :
  lower text = a ++ c :: b →
  sentinel c = Some t →
  tokenize text
  = split (replace_punctuation a) ++ sentinel_token t
    :: split (replace_punctuation b).
Proof.
  intros Htext Hc. unfold tokenize.
  rewrite Htext, !replace_punctuation_mark.
  by apply split_mark_at_sentinel.
Qed.

Lemma tokenize_at_punctuation_witness :
  tokenize (lit "Wait!What")
  = split (replace_punctuation (lit "wait"))
    ++ lit "<EXCLAMATION_MARK>" :: split (replace_punctuation (lit "what")).
Proof.
  apply (tokenize_at_punctuation (lit "Wait!What") (lit "wait") (lit "what")
           "!"%char (lit " <EXCLAMATION_MARK> ")).
  - reflexivity.
  - reflexivity.
Defined.

(** A whitespace character separates: the text tokenizes as what stands
    before it followed by what stands after it. *)
Theorem tokenize_at_whitespace (a b : str) c :
  isspace c = true →
  tokenize (a ++ c :: b) = tokenize a ++ tokenize b.
Proof.
  intros Hc. destruct (isspace_plain c Hc) as (Hlow & Hs & Hne).
  unfold tokenize.
  rewrite !replace_punctuation_mark. unfold lower at 1.
  rewrite fmap_app, fmap_cons, Hlow. fold (lower a) (lower b).
  rewrite mark_app_not_hyphen, mark_plain by done.
  unfold split. by rewrite split_from_app_space.
Qed.

Lemma tokenize_at_whitespace_witness :
  tokenize (lit "first-rate" ++ " "%char :: lit "tea")
  = tokenize (lit "first-rate") ++ tokenize (lit "tea").
Proof.
  apply (tokenize_at_whitespace (lit "first-rate") (lit "tea") " "%char).
  reflexivity.
Defined.

(** [preprocess] does not see the case of the letters: the text and its
    lowercase give the same tokens. *)
Theorem preprocess_ignores_case (text : str) :
  tokenize (lower text) = tokenize text
  ∧ preprocess (lower text) = preprocess text.
Proof.
  assert (lower (lower text) = lower text) as Hlow.
  { unfold lower. rewrite <-list_fmap_compose. apply list_fmap_ext.
    intros _ c _. apply lower_char_idemp. }
  split.
  - unfold tokenize. by rewrite Hlow.
  - unfold preprocess. by rewrite Hlow.
Qed.

(** ** Trimming *)

Lemma trim_eq (words : list str) :
  trim words = filter (λ w, (5 < occurrences w words)%nat) words.
Proof.
  unfold trim. apply list_filter_iff. intros w.
  rewrite counter_getitem_Counter. lia.
Qed.

Lemma filter_all {A} (P : A → Prop) `{∀ x, Decision (P x)} (l : list A) :
  Forall P l → filter P l = l.
Proof.
  induction 1 as [|x l Hx _ IH]; [done|]. by rewrite filter_cons_True, IH.
Qed.

Lemma occurrences_le_length {K} `{EqDecision K} (w : K) (l : list K) :
  (occurrences w l ≤ length l)%nat.
Proof. apply length_filter. Qed.

(** [preprocess] is the trimming of the tokenized text, and trimming is
    idempotent: every word that is kept still occurs more than five times
    among the words that are kept.  So [preprocess] returns no word at
    all or at least six. *)
Theorem preprocess_trimmed (text : str) :
  preprocess text = trim (tokenize text)
  ∧ trim (preprocess text) = preprocess text
  ∧ (preprocess text = [] ∨ (6 ≤ length (preprocess text))%nat).
Proof.
  assert (∀ words w, w ∈ trim words → (5 < occurrences w (trim words))%nat)
    as Hkept.
  { intros words w. rewrite trim_eq. intros [Hw _]%list_elem_of_filter.
    rewrite occurrences_filter. by rewrite decide_True. }
  assert (preprocess text = trim (tokenize text)) as Heq by done.
  split; [done|]. rewrite Heq. split.
  - rewrite (trim_eq (trim _)). apply filter_all, Forall_forall.
    intros w Hw. by apply Hkept.
  - destruct (trim (tokenize text)) as [|w out] eqn:Hout; [by left|right].
    rewrite <-Hout.
    pose proof (Hkept (tokenize text) w ltac:(rewrite Hout; left)).
    pose proof (occurrences_le_length w (trim (tokenize text))). lia.
Qed.

(** ** The subsampler, draw by draw *)

Lemma mapM_result_first_Raise {A B} (f : A → result B) (l : list A) e :
  (∀ a, a ∈ l → (∃ b, f a = Ok b) ∨ f a = Raise e) →
  (∃ a, a ∈ l ∧ f a = Raise e) →
  mapM f l = Raise e.
Proof.
  induction l as [|a l IH]; intros Hall (a0 & Hin & Ha0).
  - by apply elem_of_nil in Hin.
  - cbn [mapM]. destruct (Hall a) as [[b Hb]|Hr]; [left| |by rewrite Hr].
    rewrite Hb. cbn [mbind result_bind].
    rewrite IH; [done|intros; apply Hall; by right|].
    apply elem_of_cons in Hin as [->|Hin]; [congruence|by exists a0].
Qed.

Lemma forallb_elem_of {A} (f : A → bool) (l : list A) :
  forallb f l = true ↔ ∀ a, a ∈ l → f a = true.
Proof.
  induction l as [|a l IH]; simpl.
  - split; [by intros _ a ?%elem_of_nil|done].
  - rewrite andb_true_iff, IH. split.
    + intros [Ha Hl] x [->|Hx]%elem_of_cons; auto.
    + intros Hall. split; [apply Hall; left|intros; apply Hall; by right].
Qed.

Lemma forallb_false_elem_of {A} (f : A → bool) (l : list A) :
  forallb f l = false → ∃ a, a ∈ l ∧ f a = false.
Proof.
  induction l as [|a l IH]; simpl; [done|].
  destruct (f a) eqn:Ha; simpl.
  - intros (x & ? & ?)%IH. exists x. split; [by right|done].
  - intros _. exists a. split; [left|done].
Qed.

Section DrawFacts.
Context {F : Type} `{Float F} {K : Type} `{EqDecision K}.
Implicit Types (ws : list K) (tape : nat → F).

Lemma select_by_draw (p_drop : list (K * F)) (p : K → F) ws tape k :
  (∀ w, w ∈ ws → dict_getitem p_drop w = Ok (p w)) →
  select_each (λ word,
                 r ← draw;
                 q ← lift (dict_getitem p_drop word);
                 mret (float_lt r (float_sub (float_of_int 1) q)))
              ws tape k
  = Ok (keep_by_draw p tape k ws, (k + length ws)%nat).
Proof.
  revert k. induction ws as [|w ws IH]; intros k Hp.
  - simpl. by rewrite Nat.add_0_r.
  - rewrite select_each_cons.
    match goal with
    | |- context [match ?c tape k with _ => _ end] =>
        assert (c tape k
                = Ok (float_lt (tape k) (float_sub (float_of_int 1) (p w)), S k))
          as ->
    end.
    { rewrite bind_eq. unfold draw at 1.
      by rewrite bind_lift_Ok with (1 := Hp w ltac:(left)). }
    rewrite IH by (intros; apply Hp; by right).
    cbn [keep_by_draw length]. replace (S k + length ws)%nat with (k + S (length ws))%nat by lia.
    by destruct (float_lt _ _).
Qed.

Lemma p_drop_of_zero_frequency ws w :
  w ∈ ws → float_is_zero (word_frequency ws w) = true →
  p_drop_of (Counter ws)
    ((λ wc : K * Z, (wc.1, int_div wc.2 (len ws))) <$> Counter ws)
  = Raise ZeroDivisionError.
Proof.
  intros Hw Hz. unfold p_drop_of.
  rewrite (mapM_result_first_Raise _ _ ZeroDivisionError); [done| |].
  - intros w' Hw'. apply (proj1 (elem_of_Counter_keys ws w')) in Hw'.
    rewrite frequency_lookup by done. cbn [mbind result_bind].
    unfold float_truediv. destruct (float_is_zero (word_frequency ws w'));
      [right|left; eexists]; reflexivity.
  - exists w. split; [by apply elem_of_Counter_keys|].
    rewrite frequency_lookup by done. cbn [mbind result_bind].
    unfold float_truediv. by rewrite Hz.
Qed.
End DrawFacts.

(** The subsampling cell, whatever [int_words] and the draws.  On no
    token at all it stops with IndexError, where it prints the first
    count.  When the frequency of some token is the float zero it stops
    with ZeroDivisionError.  Otherwise it takes one draw per token, and
    keeps the token when its draw is below [1 - P(w)]: the probability
    [P(w)] to drop is that of the word, [1 - sqrt(threshold / f(w))]
    where [f(w)] is the count of [w] divided by the number of tokens. *)
Theorem train_words_by_draw {F} `{Float F} {K} `{EqDecision K}
    (int_words : list K) (tape : nat → F) (k : nat) :
  train_words int_words tape k
  = match int_words with
    | [] => Raise IndexError
    | _ :: _ =>
        if forallb (λ w, negb (float_is_zero (word_frequency int_words w))) int_words
        then Ok (keep_by_draw (drop_probability int_words) tape k int_words,
                 (k + length int_words)%nat)
        else Raise ZeroDivisionError
    end.
Proof.
  destruct int_words as [|w0 ws0] eqn:Hws; [done|]. rewrite <-Hws.
  assert (int_words ≠ []) as Hne by (by rewrite Hws). clear Hws.
  unfold train_words.
  destruct (Counter_first_item int_words Hne) as [item Hitem].
  rewrite bind_lift_Ok with (1 := Hitem).
  rewrite bind_lift_Ok with (1 := frequency_of_Counter int_words).
  destruct (forallb _ int_words) eqn:Hall.
  - assert (∀ w, w ∈ int_words →
              float_is_zero (word_frequency int_words w) = false) as Hnz.
    { intros w Hw. rewrite forallb_elem_of in Hall.
      by apply negb_true_iff, Hall. }
    rewrite bind_lift_Ok with (1 := p_drop_of_Counter int_words Hnz).
    apply select_by_draw. intros w Hw.
    unfold dict_getitem. rewrite dict_get_fmap_keys; [done|].
    by apply elem_of_Counter_keys.
  - apply forallb_false_elem_of in Hall as (w & Hw & Hz).
    apply negb_false_iff in Hz.
    by rewrite bind_lift_Raise with (1 := p_drop_of_zero_frequency int_words w Hw Hz).
Qed.

(** ** Loading a state *)

Section OwnStateFacts.
Context {R : Type}.
Implicit Types (l : fc_model.Linear R) (ls : list (fc_model.Linear R))
  (m : fc_model.Network R) (sd : list (param_name * tensor R)).

Lemma load_Linear_own sd kw kb l :
  dict_get sd kw = Some (fc_model.weight l) →
  dict_get sd kb = Some (fc_model.bias l) →
  load_Linear sd kw kb l = Ok l.
Proof.
  intros Hw Hb. unfold load_Linear, load_param. rewrite Hw, Hb.
  rewrite !decide_True by done.
  cbn [mbind result_bind mret result_ret]. by destruct l.
Qed.

Lemma load_Linear_mismatch sd kw kb l (t : tensor R) :
  dict_get sd kw = Some t → shape t ≠ shape (fc_model.weight l) →
  load_Linear sd kw kb l = Raise RuntimeError.
Proof.
  intros Hw Hs. unfold load_Linear, load_param. rewrite Hw.
  by rewrite decide_False by done.
Qed.

Lemma load_hidden_own sd n ls :
  (∀ j l, ls !! j = Some l →
     dict_get sd (hidden_weight (n + j)) = Some (fc_model.weight l)
     ∧ dict_get sd (hidden_bias (n + j)) = Some (fc_model.bias l)) →
  mapM (λ il : nat * fc_model.Linear R,
          load_Linear sd (hidden_weight il.1) (hidden_bias il.1) il.2)
       (imap (λ j l, ((n + j)%nat, l)) ls)
  = Ok ls.
Proof.
  revert n. induction ls as [|l ls IH]; intros n Hsd; [done|].
  rewrite imap_cons. cbn [mapM].
  destruct (Hsd 0%nat l eq_refl) as [Hw Hb].
  rewrite (load_Linear_own sd _ _ l) by done.
  cbn [mbind result_bind].
  rewrite (imap_ext _ (λ j l, ((S n + j)%nat, l))).
  2:{ intros j x _. simpl. f_equal. lia. }
  rewrite IH; [done|].
  intros j l' Hj. replace (S n + j)%nat with (n + S j)%nat by lia.
  by apply Hsd.
Qed.

Lemma state_dict_output m :
  dict_get (state_dict m) output_weight = Some (fc_model.weight (fc_model.output m))
  ∧ dict_get (state_dict m) output_bias = Some (fc_model.bias (fc_model.output m)).
Proof.
  by rewrite state_dict_eq, !dict_get_app, !hidden_params_output by auto.
Qed.

Lemma state_dict_hidden m j l :
  fc_model.hidden_layers m !! j = Some l →
  dict_get (state_dict m) (hidden_weight j) = Some (fc_model.weight l)
  ∧ dict_get (state_dict m) (hidden_bias j) = Some (fc_model.bias l).
Proof.
  intros Hj. rewrite state_dict_eq, !dict_get_app.
  destruct (hidden_params_lookup 0 _ j l Hj) as [Hw Hb].
  cbn [Nat.add] in Hw, Hb. by rewrite Hw, Hb.
Qed.

Lemma load_param_inv sd k (p t : tensor R) :
  load_param sd k p = Ok t → dict_get sd k = Some t ∧ shape t = shape p.
Proof.
  unfold load_param. destruct (dict_get sd k) as [t'|]; [|done].
  case_decide; [|done]. by intros [= ->].
Qed.

Lemma load_Linear_inv sd kw kb l l' :
  load_Linear sd kw kb l = Ok l' →
  fc_model.in_features l' = fc_model.in_features l
  ∧ fc_model.out_features l' = fc_model.out_features l
  ∧ dict_get sd kw = Some (fc_model.weight l')
  ∧ dict_get sd kb = Some (fc_model.bias l')
  ∧ shape (fc_model.weight l') = shape (fc_model.weight l)
  ∧ shape (fc_model.bias l') = shape (fc_model.bias l).
Proof.
  unfold load_Linear.
  destruct (load_param sd kw _) as [w|] eqn:Hw; [|done].
  destruct (load_param sd kb _) as [b|] eqn:Hb; [|done].
  cbn [mbind result_bind mret result_ret]. intros [= <-].
  apply load_param_inv in Hw as [? ?]. apply load_param_inv in Hb as [? ?].
  done.
Qed.

Lemma load_hidden_inv fresh sd n i (sizes : list Z) ls :
  mapM (λ il : nat * fc_model.Linear R,
          load_Linear sd (hidden_weight il.1) (hidden_bias il.1) il.2)
       (imap (λ j l, ((n + j)%nat, l)) (fc_model.new_layers fresh n i sizes))
  = Ok ls →
  fc_model.out_features <$> ls = sizes
  ∧ chained i ls
  ∧ ∀ j l, ls !! j = Some l →
      dict_get sd (hidden_weight (n + j)) = Some (fc_model.weight l)
      ∧ dict_get sd (hidden_bias (n + j)) = Some (fc_model.bias l).
Proof.
  revert n i ls. induction sizes as [|h sizes IH]; intros n i ls.
  - intros [= <-]. by split_and!.
  - cbn [fc_model.new_layers]. rewrite imap_cons. cbn [mapM].
    destruct (load_Linear sd _ _ _) as [l|] eqn:Hl; [|done].
    cbn [mbind result_bind].
    rewrite (imap_ext _ (λ j l, ((S n + j)%nat, l))).
    2:{ intros j x _. simpl. f_equal. lia. }
    destruct (mapM _ _) as [ls'|] eqn:Hls; [|done].
    cbn [mret result_ret]. intros [= <-].
    apply IH in Hls as (Hsizes & Hch & Hsd).
    apply load_Linear_inv in Hl as (Hin & Hout & Hw & Hb & Hsw & Hsb).
    cbn [fst snd fc_model.new_Linear fc_model.in_features fc_model.out_features
         fc_model.weight fc_model.bias shape] in *.
    rewrite Nat.add_0_r in Hw, Hb. split_and!.
    + rewrite fmap_cons. by rewrite Hout, Hsizes.
    + cbn [chained]. split_and!; [done| |by rewrite Hout].
      split; congruence.
    + intros [|j] l' Hj.
      * injection Hj as <-. by rewrite Nat.add_0_r.
      * replace (n + S j)%nat with (S n + j)%nat by lia. by apply Hsd.
Qed.

Lemma elem_of_hidden_params n ls k (t : tensor R) :
  (k, t) ∈ hidden_params n ls →
  ∃ j l, ls !! j = Some l
         ∧ ((k = hidden_weight (n + j) ∧ t = fc_model.weight l)
            ∨ (k = hidden_bias (n + j) ∧ t = fc_model.bias l)).
Proof.
  revert n. induction ls as [|l ls IH]; intros n.
  - by intros ?%elem_of_nil.
  - rewrite hidden_params_cons. unfold layer_params.
    intros [Hin|Hin]%elem_of_app.
    + exists 0%nat, l. split; [done|]. rewrite Nat.add_0_r.
      apply elem_of_cons in Hin as [[= -> ->]|Hin]; [by left|].
      apply list_elem_of_singleton in Hin as [= -> ->]. by right.
    + apply IH in Hin as (j & l' & Hj & Hk). exists (S j), l'.
      split; [done|]. by replace (n + S j)%nat with (S n + j)%nat by lia.
Qed.

Lemma state_dict_keys_length m m' :
  length (fc_model.hidden_layers m) = length (fc_model.hidden_layers m') →
  dict_keys (state_dict m) = dict_keys (state_dict m').
Proof.
  intros Hlen. rewrite !state_dict_eq. unfold dict_keys. rewrite !fmap_app.
  f_equal. by apply hidden_params_keys.
Qed.

Lemma load_state_dict_inv m0 sd m :
  load_state_dict m0 sd = Ok m →
  Forall (λ k, k ∈ dict_keys (state_dict m0)) (dict_keys sd)
  ∧ mapM (λ il : nat * fc_model.Linear R,
            load_Linear sd (hidden_weight il.1) (hidden_bias il.1) il.2)
         (imap (λ j l, ((0 + j)%nat, l)) (fc_model.hidden_layers m0))
    = Ok (fc_model.hidden_layers m)
  ∧ load_Linear sd output_weight output_bias (fc_model.output m0)
    = Ok (fc_model.output m).
Proof.
  unfold load_state_dict. case_decide as Hkeys; [|done].
  rewrite (imap_ext _ (λ j l, ((0 + j)%nat, l))) by done.
  destruct (mapM _ _) as [hs|]; [|done]. cbn [mbind result_bind].
  destruct (load_Linear sd _ _ _) as [o|]; [|done].
  cbn [mbind result_bind mret result_ret]. by intros [= <-].
Qed.

Lemma load_hidden_fresh fresh1 fresh2 sd n i (sizes : list Z) :
  mapM (λ il : nat * fc_model.Linear R,
          load_Linear sd (hidden_weight il.1) (hidden_bias il.1) il.2)
       (imap (λ j l, ((n + j)%nat, l)) (fc_model.new_layers fresh1 n i sizes))
  = mapM (λ il : nat * fc_model.Linear R,
            load_Linear sd (hidden_weight il.1) (hidden_bias il.1) il.2)
         (imap (λ j l, ((n + j)%nat, l)) (fc_model.new_layers fresh2 n i sizes)).
Proof.
  revert n i. induction sizes as [|h sizes IH]; intros n i; [done|].
  cbn [fc_model.new_layers]. rewrite !imap_cons. cbn [mapM].
  rewrite !(imap_ext (λ j l, ((n + S j)%nat, l)) (λ j l, ((S n + j)%nat, l)))
    by (intros j x _; simpl; f_equal; lia).
  by rewrite IH.
Qed.
End OwnStateFacts.

(** A model loads its own state, whatever the model, and is left as it
    was: [model.load_state_dict(model.state_dict())] raises nothing, also
    in the cells that announce an error. *)
Theorem load_state_dict_own_state {R} (model : fc_model.Network R) :
  load_state_dict model (state_dict model) = Ok model.
Proof.
  unfold load_state_dict. rewrite decide_True by (by apply Forall_forall).
  rewrite (imap_ext _ (λ j l, ((0 + j)%nat, l))) by done.
  rewrite load_hidden_own by (intros j l Hj; by apply state_dict_hidden).
  cbn [mbind result_bind].
  destruct (state_dict_output model) as [Hw Hb].
  rewrite load_Linear_own by done.
  cbn [mbind result_bind mret result_ret]. by destruct model.
Qed.

(** What [load_checkpoint] returns, when it returns, whatever the file
    holds: a model of the sizes that the file records, each layer chained
    to the one before it and each parameter of the shape of its layer;
    the state in the file has a tensor of the same shape under the name
    of each parameter, and no other key. *)
Theorem load_checkpoint_sound {R} fresh files filepath (model : fc_model.Network R) :
  load_checkpoint fresh files filepath = Ok model →
  ∃ cp,
    torch_load files filepath = Ok cp
    ∧ well_formed model (cp_input_size cp) (cp_output_size cp)
    ∧ hidden_sizes_of model = cp_hidden_layers cp
    ∧ (∀ k t, (k, t) ∈ state_dict model →
         ∃ t', dict_get (cp_state_dict cp) k = Some t' ∧ shape t' = shape t)
    ∧ (∀ k, k ∈ dict_keys (cp_state_dict cp) →
         k ∈ dict_keys (state_dict model)).
Proof.
  unfold load_checkpoint.
  destruct (torch_load files filepath) as [cp|]; [|done].
  cbn [mbind result_bind]. unfold fc_model.init.
  destruct (last (cp_hidden_layers cp)) as [h|] eqn:Hlast; [|done].
  cbn [mbind result_bind].
  destruct (load_state_dict _ _) as [m|] eqn:Hload; [|done].
  cbn [mret result_ret]. intros [= ->]. exists cp. split; [done|].
  apply load_state_dict_inv in Hload as (Hkeys & Hhidden & Hout).
  cbn [fc_model.hidden_layers fc_model.output] in Hhidden, Hout.
  apply load_hidden_inv in Hhidden as (Hsizes & Hch & Hsd).
  apply load_Linear_inv in Hout as (Hin & Ho & Hw & Hb & Hsw & Hsb).
  cbn [fc_model.new_Linear fc_model.in_features fc_model.out_features
       fc_model.weight fc_model.bias shape] in *.
  split_and!.
  - repeat split; [done|congruence|congruence| |done].
    unfold hidden_sizes_of. by rewrite Hsizes, Hlast, Hin.
  - done.
  - intros k t. rewrite state_dict_eq.
    intros [Hk|Hk]%elem_of_app.
    + apply elem_of_hidden_params in Hk as (j & l & Hj & [[-> ->]|[-> ->]]);
        apply Hsd in Hj as [? ?]; by eexists.
    + apply elem_of_cons in Hk as [[= -> ->]|Hk]; [by eexists|].
      apply list_elem_of_singleton in Hk as [= -> ->]. by eexists.
  - intros k Hk. rewrite Forall_forall in Hkeys. apply Hkeys in Hk.
    erewrite state_dict_keys_length; [exact Hk|].
    cbn [fc_model.hidden_layers].
    by rewrite <-(length_fmap fc_model.out_features), Hsizes, new_layers_length.
Qed.

Lemma load_checkpoint_sound_witness :
  ∃ cp,
    torch_load (torch_save [] (checkpoint notebook_model) "checkpoint.pth")
      "checkpoint.pth" = Ok cp
    ∧ well_formed notebook_model (cp_input_size cp) (cp_output_size cp)
    ∧ hidden_sizes_of notebook_model = cp_hidden_layers cp
    ∧ (∀ k t, (k, t) ∈ state_dict notebook_model →
         ∃ t', dict_get (cp_state_dict cp) k = Some t' ∧ shape t' = shape t)
    ∧ (∀ k, k ∈ dict_keys (cp_state_dict cp) →
         k ∈ dict_keys (state_dict notebook_model)).
Proof.
  apply (load_checkpoint_sound zero_entries
           (torch_save [] (checkpoint notebook_model) "checkpoint.pth")
           "checkpoint.pth" notebook_model).
  vm_compute. reflexivity.
Defined.

(** The checkpoint cell serves the models of 784 inputs and 10 outputs
    only: the checkpoint of a well-formed model of any other input or
    output size, once saved, makes [load_checkpoint] stop with an error,
    on the first weight or on the output weight. *)
Theorem checkpoint_cell_needs_784_10 {R} fresh files path
    (m : fc_model.Network R) i o :
  well_formed m i o →
  i ≠ 784 ∨ o ≠ 10 →
  load_checkpoint fresh (torch_save files (checkpoint m) path) path
  = Raise RuntimeError.
Proof.
  intros (Hch & Hout & Hlast & Ho) Hsizes.
  unfold load_checkpoint. rewrite torch_load_save.
  cbn [mbind result_bind checkpoint cp_input_size cp_output_size cp_hidden_layers
       cp_state_dict].
  unfold fc_model.init. change (fc_model.out_features <$> _) with (hidden_sizes_of m).
  rewrite <-Hlast. cbn [mbind result_bind].
  match goal with
  | |- ?r ≫= _ = _ => assert (r = Raise RuntimeError) as ->; [|done]
  end.
  unfold load_state_dict. case_decide as Hkeys; [|done].
  cbn [fc_model.hidden_layers fc_model.output].
  rewrite (imap_ext _ (λ j l, ((0 + j)%nat, l))) by done.
  destruct (decide (i = 784)) as [->|Hi].
  - destruct Hsizes as [|Ho10]; [done|].
    unfold hidden_sizes_of.
    rewrite (load_hidden fresh (state_dict m) 0 784)
      by (done || intros j l Hj; by apply state_dict_hidden).
    cbn [mbind result_bind].
    destruct (state_dict_output m) as [Hw _]. destruct Hout as [Hsw _].
    rewrite (load_Linear_mismatch _ _ _ _ _ Hw); [done|].
    rewrite Hsw. cbn [fc_model.new_Linear fc_model.weight shape]. congruence.
  - unfold hidden_sizes_of in *.
    destruct (fc_model.hidden_layers m) as [|l0 ls] eqn:Hls; [done|].
    destruct Hch as (Hin & [Hsw _] & _).
    rewrite fmap_cons. cbn [fc_model.new_layers]. rewrite imap_cons. cbn [mapM].
    destruct (state_dict_hidden m 0 l0) as [Hw _]; [by rewrite Hls|].
    cbn [fst snd]. rewrite (load_Linear_mismatch _ _ _ _ _ Hw); [done|].
    rewrite Hsw. cbn [fc_model.new_Linear fc_model.weight shape]. congruence.
Qed.

Lemma checkpoint_cell_needs_784_10_witness :
  load_checkpoint zero_entries
    (torch_save [] (checkpoint small_model) "checkpoint.pth") "checkpoint.pth"
  = Raise RuntimeError.
Proof.
  apply (checkpoint_cell_needs_784_10 zero_entries [] "checkpoint.pth"
           small_model 2 1).
  - by repeat split.
  - left. lia.
Defined.

(** The entries that [fc_model.Network] draws for the new model never
    show: [load_checkpoint] gives the same model, or stops with the same
    error, whatever they are. *)
Theorem load_checkpoint_any_init {R} (fresh1 fresh2 : param_name → list Z → list R)
    files filepath :
  load_checkpoint fresh1 files filepath = load_checkpoint fresh2 files filepath.
Proof.
  unfold load_checkpoint.
  destruct (torch_load files filepath) as [cp|]; [|done].
  cbn [mbind result_bind]. unfold fc_model.init.
  destruct (last (cp_hidden_layers cp)) as [h|]; [|done].
  cbn [mbind result_bind]. f_equal.
  unfold load_state_dict. cbn [fc_model.hidden_layers fc_model.output].
  match goal with
  | |- context [dict_keys (state_dict ?a)] =>
      match goal with
      | |- _ = if decide (Forall (λ k, k ∈ dict_keys (state_dict ?b)) _) then _ else _ =>
          assert (dict_keys (state_dict a) = dict_keys (state_dict b)) as ->
      end
  end.
  { apply state_dict_keys_length. cbn [fc_model.hidden_layers].
    by rewrite !new_layers_length. }
  case_decide; [|done].
  rewrite !(imap_ext pair (λ j l, ((0 + j)%nat, l))) by done.
  by rewrite (load_hidden_fresh fresh1 fresh2).
Qed.
